(** * Merging device carbon-footprint records: a model of
    [tools/parsers/lib/data.py] and the properties of its comparators,
    accessor, merger and CSV row formatter.

    Python values are modelled as the interpreter has them: [str] as a
    list of Unicode code points, [int] as [Z], [float] as the binary64
    numbers of Rocq's primitive floats.  Exceptions are results of an error
    monad, the standard input read by [input()] is passed explicitly. *)

From Stdlib Require Import ZArith Floats Ascii DecimalString.
From stdpp Require Import strings gmap list.

(** ** Exceptions *)

Inductive exn := ValueError | OverflowError | TypeError | EOFError.

Inductive outcome (A : Type) :=
  | Ok (a : A)
  | Raise (e : exn).
Arguments Ok {A} a.
Arguments Raise {A} e.

Definition bind {A B : Type} (m : outcome A) (k : A → outcome B) : outcome B :=
  match m with Ok a => k a | Raise e => Raise e end.

Notation "'let*' x := m 'in' k" := (bind m (λ x, k))
  (at level 10, x name, m at level 100, k at level 200,
   format "'[v' 'let*'  x  :=  m  'in'  '/' k ']'").

(** Short-circuit [and], [or] and [not] over expressions that may raise. *)
Definition py_and (x y : outcome bool) : outcome bool :=
  let* b := x in if b then y else Ok false.
Definition py_or (x y : outcome bool) : outcome bool :=
  let* b := x in if b then Ok true else y.
Definition py_not (x : outcome bool) : outcome bool :=
  let* b := x in Ok (negb b).

(** [for x in xs: st = body x st], stopping at the first exception. *)
Fixpoint for_each {A S : Type} (body : A → S → outcome S) (xs : list A) (st : S)
    : outcome S :=
  match xs with
  | [] => Ok st
  | x :: xs' => let* st' := body x st in for_each body xs' st'
  end.

(** [[f x for x in xs]]. *)
Fixpoint list_comp {A B : Type} (f : A → outcome B) (xs : list A)
    : outcome (list B) :=
  match xs with
  | [] => Ok []
  | x :: xs' => let* y := f x in let* ys := list_comp f xs' in Ok (y :: ys)
  end.

(** ** Strings *)

(** A Python [str]: its code points. *)
Definition pystr := list N.

(** An ASCII literal as a [pystr]. *)
Definition lit (s : string) : pystr :=
  Ascii.N_of_ascii <$> String.list_ascii_of_string s.

(** [str.isspace] of one character, which is also what [str.strip] removes
    and what the class of white characters matches in a [str] pattern. *)
Definition isspace (c : N) : bool :=
  ((9 <=? c) && (c <=? 13) || (28 <=? c) && (c <=? 32) || (c =? 133)
   || (c =? 160) || (c =? 5760) || (8192 <=? c) && (c <=? 8202)
   || (c =? 8232) || (c =? 8233) || (c =? 8239) || (c =? 8287)
   || (c =? 12288))%N.

Fixpoint lstrip (s : pystr) : pystr :=
  match s with
  | c :: s' => if isspace c then lstrip s' else s
  | [] => []
  end.
Definition rstrip (s : pystr) : pystr := reverse (lstrip (reverse s)).
Definition strip (s : pystr) : pystr := rstrip (lstrip s).

(** [s.replace(old, new)] for a one-character [old]. *)
Definition replace_char (old : N) (new : pystr) (s : pystr) : pystr :=
  c ← s; if (c =? old)%N then new else [c].

(** The substitution of [are_close_enough]: every maximal run of two or
    more white characters becomes one space; a white character alone is
    kept. *)
Inductive ws_state := Scan | One (c : N) | Run.

Fixpoint sub_ws_runs (st : ws_state) (s : pystr) : pystr :=
  match s with
  | [] => match st with Scan => [] | One d => [d] | Run => [32%N] end
  | c :: s' =>
      if isspace c then
        match st with
        | Scan => sub_ws_runs (One c) s'
        | One _ | Run => sub_ws_runs Run s'
        end
      else
        match st with
        | Scan => c :: sub_ws_runs Scan s'
        | One d => d :: c :: sub_ws_runs Scan s'
        | Run => 32%N :: c :: sub_ws_runs Scan s'
        end
  end.

(** [s < t] on strings: lexicographic on code points. *)
Fixpoint str_ltb (s t : pystr) : bool :=
  match s, t with
  | _, [] => false
  | [], _ :: _ => true
  | c :: s', d :: t' => (c <? d)%N || (c =? d)%N && str_ltb s' t'
  end.

(** ** Numbers *)

(** The literals [2e-3] and [0.05] as the binary64 numbers Python reads. *)
Definition tol_equal : float := 0x1.0624dd2f1a9fcp-9%float.
Definition tol_close : float := 0x1.999999999999ap-5%float.

(** [float(z)] for an [int]: the nearest binary64 number, ties to even;
    [OverflowError] when that is beyond the largest finite one. *)
Definition float_of_int (z : Z) : outcome float :=
  match binary_normalize prec emax z 0 false with
  | S754_infinity _ => Raise OverflowError
  | sf => Ok (SF2Prim sf)
  end.

(** Python compares an [int] with a [float] exactly, without converting. *)
Definition cmp_int_float (z : Z) (f : float) : option comparison :=
  match Prim2SF f with
  | S754_nan => None
  | S754_infinity s => Some (if s then Gt else Lt)
  | S754_zero _ => Some (z ?= 0)%Z
  | S754_finite s m e =>
      let v := cond_Zopp s (Z.pos m) in
      Some (if (0 <=? e)%Z then (z ?= v * 2 ^ e)%Z else (z * 2 ^ (- e) ?= v)%Z)
  end.

(** ** Values *)

Inductive value :=
  | VStr (s : pystr)
  | VInt (z : Z)
  | VFloat (f : float).

Definition is_str (v : value) : bool :=
  match v with VStr _ => true | _ => false end.
Definition is_float (v : value) : bool :=
  match v with VFloat _ => true | _ => false end.

(** [a - b] *)
Definition py_sub (a b : value) : outcome value :=
  match a, b with
  | VInt x, VInt y => Ok (VInt (x - y))
  | VInt x, VFloat g => let* f := float_of_int x in Ok (VFloat (f - g))
  | VFloat f, VInt y => let* g := float_of_int y in Ok (VFloat (f - g))
  | VFloat f, VFloat g => Ok (VFloat (f - g))
  | _, _ => Raise TypeError
  end.

(** [abs(a)] *)
Definition py_abs (a : value) : outcome value :=
  match a with
  | VInt x => Ok (VInt (Z.abs x))
  | VFloat f => Ok (VFloat (abs f))
  | VStr _ => Raise TypeError
  end.

(** [a * b] on numbers. *)
Definition py_mul (a b : value) : outcome value :=
  match a, b with
  | VFloat f, VFloat g => Ok (VFloat (f * g))
  | VFloat f, VInt y => let* g := float_of_int y in Ok (VFloat (f * g))
  | VInt x, VFloat g => let* f := float_of_int x in Ok (VFloat (f * g))
  | VInt x, VInt y => Ok (VInt (x * y))
  | _, _ => Raise TypeError
  end.

(** [a < b] *)
Definition py_lt (a b : value) : outcome bool :=
  match a, b with
  | VInt x, VInt y => Ok (x <? y)%Z
  | VInt x, VFloat g =>
      Ok match cmp_int_float x g with Some Lt => true | _ => false end
  | VFloat f, VInt y =>
      Ok match cmp_int_float y f with Some Gt => true | _ => false end
  | VFloat f, VFloat g => Ok (f <? g)%float
  | VStr s, VStr t => Ok (str_ltb s t)
  | _, _ => Raise TypeError
  end.

(** [a <= b] *)
Definition py_le (a b : value) : outcome bool :=
  match a, b with
  | VInt x, VInt y => Ok (x <=? y)%Z
  | VInt x, VFloat g =>
      Ok match cmp_int_float x g with Some (Lt | Eq) => true | _ => false end
  | VFloat f, VInt y =>
      Ok match cmp_int_float y f with Some (Gt | Eq) => true | _ => false end
  | VFloat f, VFloat g => Ok (f <=? g)%float
  | VStr s, VStr t => Ok (negb (str_ltb t s))
  | _, _ => Raise TypeError
  end.

(** [max(a, b)]: the first argument unless the second is greater. *)
Definition py_max (a b : value) : outcome value :=
  let* gt := py_lt a b in Ok (if gt then b else a).

(** [math.isnan(x)] converts its argument to a float. *)
Definition math_isnan (x : value) : outcome bool :=
  match x with
  | VInt z => let* f := float_of_int z in Ok (is_nan f)
  | VFloat f => Ok (is_nan f)
  | VStr _ => Raise TypeError
  end.

(** [x == 0] *)
Definition py_eq_zero (x : value) : bool :=
  match x with
  | VInt z => (z =? 0)%Z
  | VFloat f => (f =? 0)%float
  | VStr _ => false
  end.

(** ** The comparators *)

Definition is_empty (x : value) : outcome bool :=
  py_or
    (py_and (Ok (is_str x))
       (Ok match x with VStr s => bool_decide (s = []) | _ => false end))
    (py_and (Ok (negb (is_str x)))
       (py_or (math_isnan x) (Ok (py_eq_zero x)))).

Definition are_equal (a b : value) : outcome bool :=
  match a, b with
  | VStr s, VStr t => Ok (bool_decide (strip s = strip t))
  | VStr _, _ | _, VStr _ => Ok false
  | _, _ =>
      let* d := py_sub a b in
      let* ad := py_abs d in
      let* m := py_max a b in
      let* t := py_mul (VFloat tol_equal) m in
      py_le ad t
  end.

(** ** The schema and the record *)

Inductive pytype := TStr | TFloat | TInt.

(** [DeviceCarbonFootprintData.__annotations__], in declaration order. *)
Definition annotations : list (pystr * pytype) :=
  [ (lit "manufacturer", TStr); (lit "name", TStr); (lit "category", TStr);
    (lit "subcategory", TStr); (lit "gwp_total", TFloat);
    (lit "gwp_use_ratio", TFloat); (lit "yearly_tec", TFloat);
    (lit "lifetime", TFloat); (lit "use_location", TStr);
    (lit "report_date", TStr); (lit "sources", TStr);
    (lit "sources_hash", TStr); (lit "gwp_error_ratio", TFloat);
    (lit "gwp_manufacturing_ratio", TFloat); (lit "weight", TFloat);
    (lit "assembly_location", TStr); (lit "screen_size", TFloat);
    (lit "server_type", TStr); (lit "hard_drive", TStr);
    (lit "memory", TFloat); (lit "number_cpu", TInt); (lit "height", TInt);
    (lit "added_date", TStr); (lit "add_method", TStr);
    (lit "gwp_transport_ratio", TFloat); (lit "gwp_eol_ratio", TFloat);
    (lit "gwp_electronics_ratio", TFloat); (lit "gwp_battery_ratio", TFloat);
    (lit "gwp_hdd_ratio", TFloat); (lit "gwp_ssd_ratio", TFloat);
    (lit "gwp_othercomponents_ratio", TFloat); (lit "comment", TStr) ].

Definition schema_keys : list pystr := annotations.*1.
#[global] Typeclasses Opaque schema_keys.

Record DeviceCarbonFootprint := { data : gmap pystr value }.

Definition get (self : DeviceCarbonFootprint) (key : pystr) : outcome value :=
  match data self !! key with
  | Some v => Ok v
  | None =>
      if bool_decide (key ∈ schema_keys) then Ok (VStr []) else Raise ValueError
  end.

(** ** The CSV writer *)

Inductive csv_format := Us | Fr.

(** [csv.writer] with the default dialect but for the delimiter: the double
    quote as quote character, doubled when it occurs in a field, minimal
    quoting, lines ended by CR LF.  A field is quoted when it holds the
    delimiter, the quote character, CR or LF. *)
Definition quotechar : N := 34.
Definition csv_special (delimiter c : N) : bool :=
  ((c =? delimiter) || (c =? quotechar) || (c =? 13) || (c =? 10))%N.

Definition join_append_data (delimiter : N) (field : pystr) : pystr * bool :=
  (c ← field; if (c =? quotechar)%N then [quotechar; quotechar] else [c],
   existsb (csv_special delimiter) field).

(** The writer's buffer and its count of fields. *)
Definition join_append (delimiter : N) (st : pystr * nat) (field : pystr)
    : pystr * nat :=
  let '(rec, num_fields) := st in
  let '(field_data, quoted) := join_append_data delimiter field in
  (rec ++ (if (0 <? num_fields)%nat then [delimiter] else [])
       ++ (if quoted then [quotechar] ++ field_data ++ [quotechar]
           else field_data),
   S num_fields).

Definition csv_writerow (delimiter : N) (row : list pystr) : pystr :=
  let '(rec, num_fields) := foldl (join_append delimiter) ([], 0%nat) row in
  (if (0 <? num_fields)%nat && (length rec =? 0)%nat
   then [quotechar; quotechar] else rec) ++ [13; 10]%N.

(** ** The state of the merger *)

Inductive conflict_policy := Keep2nd | Interactive.
Inductive side := First | Second.

(** The locals of [merge]: the merged dict, the two provenance sets and
    the list of conflicting keys. *)
Record merge_state := {
  result : gmap pystr value;
  report : gset pystr * gset pystr;
  conflicts : list pystr }.

(** [result[key] = v; report[i].add(key)] *)
Definition assign (i : side) (key : pystr) (v : value) (st : merge_state)
    : merge_state :=
  {| result := <[key := v]> (result st);
     report := match i with
               | First => ({[key]} ∪ (report st).1, (report st).2)
               | Second => ((report st).1, {[key]} ∪ (report st).2)
               end;
     conflicts := conflicts st |}.

Definition ignore_keys : list pystr :=
  [lit "added_date"; lit "add_method"; lit "comment"].

(** [result[key] = device.get(key); report[i].add(key)] *)
Definition resolve (device : DeviceCarbonFootprint) (i : side) (key : pystr)
    (st : merge_state) : outcome merge_state :=
  let* v := get device key in Ok (assign i key v st).

(** [input()]: the next line of the standard input. *)
Definition input (stdin : list pystr) : outcome (pystr * list pystr) :=
  match stdin with
  | [] => Raise EOFError
  | line :: rest => Ok (line, rest)
  end.

Definition merge_output : Type :=
  DeviceCarbonFootprint * (gset pystr * gset pystr) * list pystr.

(** ** Normalising and building records *)

(** What [reorder] does to a string: commas, double quotes and semicolons
    removed, then stripped. *)
Definition clean (s : pystr) : pystr :=
  strip (replace_char 59 [] (replace_char 34 [] (replace_char 44 [] s))).

(** The body of the loop of [reorder], which reads the field twice.  The
    string methods exist on strings only; the second read returns what the
    first did, so the last branch is never taken. *)
Definition reorder_field (self : DeviceCarbonFootprint) (key : pystr)
    (typed_data : gmap pystr value) : outcome (gmap pystr value) :=
  let* v := get self key in
  if is_str v then
    let* v' := get self key in
    match v' with
    | VStr s => Ok (<[key := VStr (clean s)]> typed_data)
    | _ => Raise TypeError
    end
  else
    let* v' := get self key in Ok (<[key := v']> typed_data).

Definition reorder (self : DeviceCarbonFootprint)
    : outcome DeviceCarbonFootprint :=
  let* typed_data := for_each (reorder_field self) schema_keys ∅ in
  Ok {| data := typed_data |}.

(** The substitution of [from_text] on the text of an integer field: a
    final point followed by zeros only is removed; the end of the text is
    its end or the place before a last line feed. *)
Fixpoint drop_zeros (s : pystr) : pystr :=
  match s with
  | c :: s' => if (c =? 48)%N then drop_zeros s' else s
  | [] => []
  end.

Definition sub_point_zeros (s : pystr) : pystr :=
  let '(nl, r) :=
    match reverse s with
    | c :: r' => if (c =? 10)%N then ([c], r') else ([], c :: r')
    | [] => ([], [])
    end in
  match drop_zeros r with
  | c :: p => if (c =? 46)%N then reverse p ++ nl else s
  | [] => s
  end.

Section FromText.

(** [float(text)] and [int(text)] are the interpreter's; on a text they do
    not read they raise [ValueError], here [None]. *)
Variable float_of_str : pystr → option float.
Variable int_of_str : pystr → option Z.

(** [data_type(value)], with the [ValueError] that [from_text] raises in
    turn. *)
Definition convert (data_type : pytype) (text : pystr) : outcome value :=
  match data_type with
  | TStr => Ok (VStr text)
  | TFloat =>
      match float_of_str text with
      | Some f => Ok (VFloat f)
      | None => Raise ValueError
      end
  | TInt =>
      match int_of_str text with
      | Some z => Ok (VInt z)
      | None => Raise ValueError
      end
  end.

(** The body of the loop of [from_text] over the annotations; a key that
    is missing or whose text is empty is skipped. *)
Definition from_text_field (raw : gmap pystr pystr) (item : pystr * pytype)
    (typed_data : gmap pystr value) : outcome (gmap pystr value) :=
  let '(key, data_type) := item in
  match raw !! key with
  | None | Some [] => Ok typed_data
  | Some text =>
      let text :=
        match data_type with
        | TInt => sub_point_zeros text
        | _ => text
        end in
      let* v := convert data_type text in
      Ok (<[key := v]> typed_data)
  end.

Definition from_text (raw : gmap pystr pystr) : outcome DeviceCarbonFootprint :=
  let* typed_data := for_each (from_text_field raw) annotations ∅ in
  Ok {| data := typed_data |}.

End FromText.

(** The value has the type the schema declares. *)
Definition has_type (t : pytype) (v : value) : Prop :=
  match t, v with
  | TStr, VStr _ | TFloat, VFloat _ | TInt, VInt _ => True
  | _, _ => False
  end.

(** ** Notions used to state further properties *)

(** The side that wins the conflicts: the first only when the policy is
    interactive and the line read is [o]. *)
Definition winner (conflict : conflict_policy) (stdin : list pystr) : side :=
  match conflict, stdin with
  | Interactive, line :: _ =>
      if bool_decide (line = lit "o") then First else Second
  | _, _ => Second
  end.

(** The first branch of the loop of [merge]: A has the field, B has not. *)
Definition only_first (v1 v2 : value) : bool :=
  match is_empty v1, is_empty v2 with
  | Ok false, Ok true => true
  | _, _ => false
  end.

(** Only white characters. *)
Definition white (s : pystr) : Prop := Forall (λ c, isspace c = true) s.

(** No white character at either end. *)
Definition trimmed (s : pystr) : Prop :=
  (∀ c, head s = Some c → isspace c = false) ∧
  (∀ c, last s = Some c → isspace c = false).

(** The character [sub_ws_runs] holds back, if any, is white. *)
Definition ws_state_ok (st : ws_state) : Prop :=
  match st with One d => isspace d = true | _ => True end.

(** What [reorder] stores for a value. *)
Definition normal (v : value) : value :=
  match v with VStr s => VStr (clean s) | _ => v end.

(** The number of times [c] occurs in [s]. *)
Definition occurrences (c : N) (s : pystr) : nat := count_occ N.eq_dec s c.

#[global] Instance pytype_eq_dec : EqDecision pytype.
Proof. solve_decision. Defined.

(** The text [from_text] hands to the constructor of the type. *)
Definition prepared (t : pytype) (text : pystr) : pystr :=
  match t with TInt => sub_point_zeros text | _ => text end.

(** What [from_text] reads for a field: nothing when there is no text or
    an empty one, else the conversion of the text. *)
Definition read_field (float_of_str : pystr → option float)
    (int_of_str : pystr → option Z) (raw : gmap pystr pystr) (key : pystr)
    (t : pytype) : option (outcome value) :=
  match raw !! key with
  | None | Some [] => None
  | Some text => Some (convert float_of_str int_of_str t (prepared t text))
  end.

(** A number that is zero or above, infinity included. *)
Definition sf_nonneg (x : spec_float) : bool :=
  match x with
  | S754_zero _ => true
  | S754_infinity s | S754_finite s _ _ => negb s
  | S754_nan => false
  end.

(** A string, or a number from zero on that is finite: an integer that
    converts to a float, a float below infinity. *)
Definition plain_value (v : value) : bool :=
  match v with
  | VStr _ => true
  | VInt z =>
      (0 <=? z)%Z &&
      match float_of_int z with Ok _ => true | Raise _ => false end
  | VFloat f => (0 <=? f)%float && (f <? infinity)%float
  end.

(** The value is the float not-a-number. *)
Definition is_nan_value (v : value) : bool :=
  match v with VFloat f => is_nan f | _ => false end.

(** [k <= t] for an integer [k] and a float [t], as [py_le] decides it. *)
Definition int_le_float (k : Z) (t : float) : bool :=
  match cmp_int_float k t with Some (Lt | Eq) => true | _ => false end.

(** An empty value, not-a-number included, or a plain one. *)
Definition plain_field (v : value) : bool :=
  match is_empty v with Ok true => true | _ => plain_value v end.

(** ** Sample data for the examples *)

(** [str.lower] on ASCII letters. *)
Definition ascii_lower (s : pystr) : pystr :=
  (λ c, if (65 <=? c) && (c <=? 90) then c + 32 else c)%N <$> s.

(** A stand-in for [repr] of a float, right on the floats it names. *)
Definition sample_repr (f : float) : pystr :=
  if (f =? 1.5)%float then lit "1.5" else lit "100.0".

Definition device_a : DeviceCarbonFootprint :=
  {| data := list_to_map
       [ (lit "manufacturer", VStr (lit "Acme"));
         (lit "name", VStr (lit "Book 13"));
         (lit "category", VStr (lit "Laptop"));
         (lit "gwp_total", VFloat 100);
         (lit "weight", VFloat 1.5);
         (lit "number_cpu", VInt 2) ] |}.

Definition device_b : DeviceCarbonFootprint :=
  {| data := list_to_map
       [ (lit "manufacturer", VStr (lit "Acme"));
         (lit "name", VStr (lit "book  13 "));
         (lit "category", VStr (lit "Desktop"));
         (lit "gwp_total", VFloat 0x1.a39999999999ap+6);
         (lit "lifetime", VFloat 4);
         (lit "number_cpu", VInt 2) ] |}.

(** A record with a negative footprint. *)
Definition device_neg : DeviceCarbonFootprint :=
  {| data := {[ lit "gwp_total" := VFloat (-1) ]} |}.

(** One hundred times the negative number nearest to zero. *)
Definition tiny_neg : float := Eval vm_compute in Z.ldexp (-100) (-1074).

(** ** The functions that use [str.lower] and [repr] *)

Section Python.

(** [str.lower] and [repr] of a float are the interpreter's: the Unicode
    case mapping and the shortest decimal that reads back.  The model is
    stated for any such functions. *)
Variable str_lower : pystr → pystr.
Variable float_repr : float → pystr.

(** The key [are_close_enough] compares strings by: the right double
    quotation mark replaced by [in], runs of white characters collapsed,
    stripped, lower-cased. *)
Definition close_key (a : pystr) : pystr :=
  str_lower (strip (sub_ws_runs Scan (replace_char 8221 (lit "in") a))).

Definition are_close_enough (a b : value) : outcome bool :=
  match a, b with
  | VStr s, VStr t =>
      let aval := close_key s in
      let bval := close_key t in
      Ok (bool_decide (aval = bval))
  | VStr _, _ | _, VStr _ => Ok false
  | _, _ =>
      let* d := py_sub a b in
      let* ad := py_abs d in
      let* m := py_max a b in
      let* t := py_mul (VFloat tol_close) m in
      py_le ad t
  end.

(** [str(value)] *)
Definition py_str (v : value) : pystr :=
  match v with
  | VStr s => s
  | VInt z => lit (NilZero.string_of_int (Z.to_int z))
  | VFloat f => float_repr f
  end.

Definition _format_csv_row (row : list value) (fmt : csv_format) : pystr :=
  csv_writerow (match fmt with Fr => 59 | Us => 44 end)%N
    ((λ value,
        if match fmt with Fr => true | Us => false end && is_float value
        then replace_char 46 [44%N] (py_str value)
        else py_str value) <$> row).

Definition as_csv_row (self : DeviceCarbonFootprint) (fmt : csv_format)
    : outcome pystr :=
  let* row := list_comp (get self) schema_keys in
  Ok (_format_csv_row row fmt).

Definition csv_headers (fmt : csv_format) : pystr :=
  _format_csv_row (VStr <$> schema_keys) fmt.

(** The body of the loop over the schema.  What it prints is left out:
    printing changes none of the three values returned. *)
Definition merge_field (device1 device2 : DeviceCarbonFootprint)
    (key : pystr) (st : merge_state) : outcome merge_state :=
  let* v1 := get device1 key in
  let* v2 := get device2 key in
  let* c := py_and (py_not (is_empty v1)) (is_empty v2) in
  if c then Ok (assign First key v1 st) else
  let* c := py_and (is_empty v1) (py_not (is_empty v2)) in
  if c then Ok (assign Second key v2 st) else
  let* c := py_or (py_and (is_empty v1) (is_empty v2)) (are_equal v1 v2) in
  if c then Ok (assign Second key v2 st) else
  let* c := are_close_enough v1 v2 in
  if c then Ok (assign Second key v2 st) else
  if bool_decide (key ∈ ignore_keys) then Ok (assign Second key v2 st) else
  if bool_decide (key = lit "sources") then Ok (assign Second key v2 st) else
  Ok {| result := result st; report := report st;
        conflicts := conflicts st ++ [key] |}.

(** [merge] returns its triple and what is left of the standard input.
    [verbose] only selects what is printed. *)
Definition merge (device1 device2 : DeviceCarbonFootprint)
    (conflict : conflict_policy) (verbose : Z) (stdin : list pystr)
    : outcome (merge_output * list pystr) :=
  let* st :=
    for_each (merge_field device1 device2) schema_keys
      {| result := ∅; report := (∅, ∅); conflicts := [] |} in
  let* st_in :=
    if (0 <? length (conflicts st))%nat then
      let* k_in :=
        match conflict with
        | Interactive => input stdin
        | Keep2nd => Ok (lit "n", stdin)
        end in
      let* st' :=
        if bool_decide (k_in.1 = lit "o")
        then for_each (resolve device1 First) (conflicts st) st
        else for_each (resolve device2 Second) (conflicts st) st in
      Ok (st', k_in.2)
    else Ok (st, stdin) in
  Ok (({| data := result st_in.1 |}, report st_in.1, conflicts st_in.1),
      st_in.2).

(** ** Notions used to state the properties *)

(** What the accessor returns for a key of the schema. *)
Definition field (d : DeviceCarbonFootprint) (key : pystr) : value :=
  default (VStr []) (data d !! key).

(** The record's keys are keys of the schema, as its [TypedDict] type says. *)
Definition well_typed (d : DeviceCarbonFootprint) : Prop :=
  dom (data d) ⊆ list_to_set schema_keys.

(** An [int] value converts to a float ([math.isnan] and the tolerance tests
    convert it); other values always pass. *)
Definition finite_int (v : value) : bool :=
  match v with
  | VInt z => match float_of_int z with Ok _ => true | Raise _ => false end
  | _ => true
  end.

(** Both records hold only such values in the fields of the schema. *)
Definition finite_fields (d1 d2 : DeviceCarbonFootprint) : Prop :=
  ∀ key, key ∈ schema_keys →
    finite_int (field d1 key) = true ∧ finite_int (field d2 key) = true.

(** Every field of the schema is empty or plain. *)
Definition plain_record (r : DeviceCarbonFootprint) : Prop :=
  ∀ key, key ∈ schema_keys → plain_field (field r key) = true.

(** The last branch of the loop is reached: no rule resolves the field. *)
Definition is_conflict (key : pystr) (v1 v2 : value) : Prop :=
  is_empty v1 = Ok false ∧ is_empty v2 = Ok false ∧
  are_equal v1 v2 = Ok false ∧ are_close_enough v1 v2 = Ok false ∧
  (key ∉ ignore_keys) ∧ key ≠ lit "sources".

(** The branch of the loop a field takes, as one decision. *)
Inductive decision := Keep (i : side) | Escalate.

Definition classify (key : pystr) (v1 v2 : value) : outcome decision :=
  let* e1 := is_empty v1 in
  let* e2 := is_empty v2 in
  match e1, e2 with
  | false, true => Ok (Keep First)
  | true, _ => Ok (Keep Second)
  | false, false =>
      let* eq := are_equal v1 v2 in
      if eq then Ok (Keep Second) else
      let* cl := are_close_enough v1 v2 in
      if cl then Ok (Keep Second) else
      if bool_decide (key ∈ ignore_keys) then Ok (Keep Second) else
      if bool_decide (key = lit "sources") then Ok (Keep Second) else
      Ok Escalate
  end.

Definition apply_decision (d : decision) (key : pystr) (v1 v2 : value)
    (st : merge_state) : merge_state :=
  match d with
  | Keep First => assign First key v1 st
  | Keep Second => assign Second key v2 st
  | Escalate => {| result := result st; report := report st;
                   conflicts := conflicts st ++ [key] |}
  end.

(** The set of [report] that side [i] names. *)
Definition report_of (i : side) (r : gset pystr * gset pystr) : gset pystr :=
  match i with First => r.1 | Second => r.2 end.
Definition other (i : side) : side :=
  match i with First => Second | Second => First end.

(** The key was given to side [i] with that side's value. *)
Definition kept (d1 d2 : DeviceCarbonFootprint) (i : side)
    (m : gmap pystr value) (r : gset pystr * gset pystr) (key : pystr) : Prop :=
  m !! key = Some (field (match i with First => d1 | Second => d2 end) key) ∧
  key ∈ report_of i r ∧ key ∉ report_of (other i) r.

(** Nothing was recorded for the key. *)
Definition untouched (st : merge_state) (key : pystr) : Prop :=
  result st !! key = None ∧ (key ∉ (report st).1) ∧ (key ∉ (report st).2) ∧
  (key ∉ conflicts st).

(** The loop has dealt with the key. *)
Definition settled (d1 d2 : DeviceCarbonFootprint) (st : merge_state)
    (key : pystr) : Prop :=
  ∃ d, classify key (field d1 key) (field d2 key) = Ok d ∧
    match d with
    | Keep i => kept d1 d2 i (result st) (report st) key ∧ key ∉ conflicts st
    | Escalate => result st !! key = None ∧ (key ∉ (report st).1) ∧
                  (key ∉ (report st).2) ∧ key ∈ conflicts st
    end.

(** Two states record the same for the key. *)
Definition same_at (st st' : merge_state) (key : pystr) : Prop :=
  result st' !! key = result st !! key ∧
  (key ∈ (report st').1 ↔ key ∈ (report st).1) ∧
  (key ∈ (report st').2 ↔ key ∈ (report st).2) ∧
  (key ∈ conflicts st' ↔ key ∈ conflicts st).

(** Every key of the schema went to the side its branch names, the
    conflicting ones all to the side [w] that won the conflicts; nothing
    else is in the result. *)
Definition merged_as (d1 d2 : DeviceCarbonFootprint) (w : side)
    (out : merge_output) : Prop :=
  (∀ key, key ∈ schema_keys →
     ∃ d, classify key (field d1 key) (field d2 key) = Ok d ∧
       match d with
       | Keep i => kept d1 d2 i (data out.1.1) out.1.2 key ∧ key ∉ out.2
       | Escalate => kept d1 d2 w (data out.1.1) out.1.2 key ∧ key ∈ out.2
       end) ∧
  (∀ key, key ∉ schema_keys →
     data out.1.1 !! key = None ∧ (key ∉ out.1.2.1) ∧ (key ∉ out.1.2.2) ∧
     (key ∉ out.2)).

(** The third component of what [merge] returns. *)
Definition returned_conflicts (o : outcome (merge_output * list pystr))
    : option (list pystr) :=
  match o with Ok (_, _, cs, _) => Some cs | Raise _ => None end.

(** The numeric test of both comparators, for a tolerance [tol]. *)
Definition within (tol : float) (a b : value) : outcome bool :=
  let* d := py_sub a b in
  let* ad := py_abs d in
  let* m := py_max a b in
  let* t := py_mul (VFloat tol) m in
  py_le ad t.

(** What a row of the CSV file holds for a value: its [str], with the
    decimal point of a float turned into a comma in the [Fr] format. *)
Definition delimiter (fmt : csv_format) : N :=
  match fmt with Fr => 59 | Us => 44 end.
Definition cell (fmt : csv_format) (v : value) : pystr :=
  match fmt, v with
  | Fr, VFloat f => replace_char 46 [44%N] (float_repr f)
  | _, _ => py_str v
  end.

(** A field as the CSV writer emits it. *)
Definition csv_quote (delim : N) (s : pystr) : pystr :=
  if existsb (csv_special delim) s
  then [quotechar] ++ replace_char quotechar [quotechar; quotechar] s
         ++ [quotechar]
  else s.

(** [sep.join(fields)] *)
Definition join (sep : N) (fields : list pystr) : pystr :=
  match fields with
  | [] => []
  | x :: rest => x ++ concat ((λ y, sep :: y) <$> rest)
  end.

(** ** The accessor *)

Lemma get_field d key v : get d key = Ok v → v = field d key.
Proof.
  unfold get, field. destruct (data d !! key) as [w|]; simpl.
  - congruence.
  - case_bool_decide; congruence.
Qed.

Lemma get_schema d key : key ∈ schema_keys → get d key = Ok (field d key).
Proof.
  intros Hin. unfold get, field. destruct (data d !! key); simpl; [done|].
  case_bool_decide; done.
Qed.

Lemma get_stored d key v : data d !! key = Some v → get d key = Ok v.
Proof. intros H. unfold get. by rewrite H. Qed.

Lemma schema_keys_NoDup : NoDup schema_keys.
Proof. apply (bool_decide_unpack _). by vm_compute. Qed.

(** ** The loop over the schema *)

Lemma merge_field_classify d1 d2 key st :
  key ∈ schema_keys →
  merge_field d1 d2 key st =
  let* d := classify key (field d1 key) (field d2 key) in
  Ok (apply_decision d key (field d1 key) (field d2 key) st).
Proof.
  intros Hin. unfold merge_field, classify.
  rewrite !get_schema by done. cbn [bind].
  unfold py_and, py_or, py_not.
  destruct (is_empty (field d1 key)) as [[]|]; cbn [bind negb];
    destruct (is_empty (field d2 key)) as [[]|]; cbn [bind negb]; try done.
  destruct (are_equal _ _) as [[]|]; cbn [bind]; try done.
  destruct (are_close_enough _ _) as [[]|]; cbn [bind]; try done.
  repeat case_bool_decide; done.
Qed.

Lemma same_at_refl st key : same_at st st key.
Proof. by unfold same_at. Qed.

Lemma same_at_trans st1 st2 st3 key :
  same_at st1 st2 key → same_at st2 st3 key → same_at st1 st3 key.
Proof. unfold same_at. intros (-> & ? & ? & ?) (-> & ? & ? & ?). naive_solver. Qed.

Lemma untouched_same st st' key :
  same_at st st' key → untouched st key → untouched st' key.
Proof. unfold same_at, untouched. intros (-> & ? & ? & ?). naive_solver. Qed.

Lemma settled_same d1 d2 st st' key :
  same_at st st' key → settled d1 d2 st key → settled d1 d2 st' key.
Proof.
  unfold same_at, settled, kept. intros (Hr & H1 & H2 & Hc) (d & Hd & H).
  exists d. split; [done|]. rewrite Hr.
  destruct d as [[]|]; simpl in *; naive_solver.
Qed.

Lemma apply_decision_same d key v1 v2 st k :
  k ≠ key → same_at st (apply_decision d key v1 v2 st) k.
Proof.
  intros Hne. unfold same_at.
  destruct d as [[]|]; simpl; rewrite ?lookup_insert_ne by done;
    set_solver.
Qed.

Lemma apply_decision_settled d1 d2 d key st :
  classify key (field d1 key) (field d2 key) = Ok d →
  untouched st key →
  settled d1 d2 (apply_decision d key (field d1 key) (field d2 key) st) key.
Proof.
  intros Hd (Hr & H1 & H2 & Hc). exists d. split; [done|].
  destruct d as [[]|]; unfold kept; simpl; rewrite ?lookup_insert_eq;
    set_solver.
Qed.

Lemma loop_spec d1 d2 ks : ∀ st st',
  NoDup ks →
  (∀ k, k ∈ ks → k ∈ schema_keys) →
  (∀ k, k ∈ ks → untouched st k) →
  for_each (merge_field d1 d2) ks st = Ok st' →
  (∀ k, k ∈ ks → settled d1 d2 st' k) ∧ (∀ k, k ∉ ks → same_at st st' k).
Proof.
  induction ks as [|key ks IH]; intros st st' Hnd Hsch Hun Hrun.
  - simpl in Hrun. injection Hrun as <-. split; [set_solver|].
    intros. apply same_at_refl.
  - apply NoDup_cons in Hnd as [Hfresh Hnd]. simpl in Hrun.
    rewrite merge_field_classify in Hrun by set_solver.
    destruct (classify key _ _) as [d|] eqn:Hd; [|done]. cbn [bind] in Hrun.
    set (st1 := apply_decision d key _ _ st) in Hrun.
    destruct (IH st1 st' Hnd) as [Hdone Hrest]; [set_solver| |done|].
    { intros k Hk. apply (untouched_same st); [|set_solver].
      apply apply_decision_same. set_solver. }
    split.
    + intros k [->|Hk]%elem_of_cons; [|by apply Hdone].
      apply (settled_same _ _ st1); [by apply Hrest|].
      apply apply_decision_settled; [done|set_solver].
    + intros k Hk. apply (same_at_trans _ st1); [|apply Hrest; set_solver].
      apply apply_decision_same. set_solver.
Qed.

(** ** The loops over the conflicts *)

Lemma resolve_spec d i cs : ∀ st st',
  for_each (resolve d i) cs st = Ok st' →
  conflicts st' = conflicts st ∧
  report_of (other i) (report st') = report_of (other i) (report st) ∧
  report_of i (report st') = list_to_set cs ∪ report_of i (report st) ∧
  ∀ k, result st' !! k =
       if bool_decide (k ∈ cs) then Some (field d k) else result st !! k.
Proof.
  induction cs as [|key cs IH]; intros st st' Hrun.
  - simpl in Hrun. injection Hrun as <-.
    split_and!; [done|done|set_solver|].
    intros k. by rewrite bool_decide_eq_false_2 by set_solver.
  - simpl in Hrun. unfold resolve at 1 in Hrun.
    destruct (get d key) as [v|] eqn:Hget; [|done]. cbn [bind] in Hrun.
    apply get_field in Hget as ->.
    destruct (IH _ _ Hrun) as (Hc & Ho & Hi & Hres).
    split_and!.
    + by rewrite Hc.
    + rewrite Ho. by destruct i.
    + rewrite Hi. destruct i; simpl; set_solver.
    + intros k. rewrite Hres. simpl.
      destruct (decide (k = key)) as [->|Hne].
      * rewrite (bool_decide_eq_true_2 (key ∈ key :: cs)) by set_solver.
        case_bool_decide; [done|]. by rewrite lookup_insert_eq.
      * rewrite lookup_insert_ne by done.
        repeat case_bool_decide; set_solver.
Qed.

(** ** What [merge] returns *)

Lemma resolved_merged_as d1 d2 w st st' :
  (∀ k, k ∈ schema_keys → settled d1 d2 st k) →
  (∀ k, k ∉ schema_keys → untouched st k) →
  for_each (resolve (match w with First => d1 | Second => d2 end) w)
    (conflicts st) st = Ok st' →
  merged_as d1 d2 w ({| data := result st' |}, report st', conflicts st').
Proof.
  intros Hdone Hrest Hrun.
  apply resolve_spec in Hrun as (Hc & Ho & Hi & Hres).
  split; simpl.
  - intros key Hkey. destruct (Hdone key Hkey) as (d & Hd & H).
    exists d. split; [done|]. rewrite Hc. unfold kept in *. rewrite Hres.
    destruct d as [i|].
    + destruct H as ((Hr & Hin & Hout) & Hnc).
      rewrite bool_decide_eq_false_2 by done. split; [|done].
      split; [done|].
      destruct w, i; simpl in *; rewrite ?Hi, ?Ho; set_solver.
    + destruct H as (Hr & H1 & H2 & Hin).
      rewrite bool_decide_eq_true_2 by done. split; [|done].
      split; [done|]. destruct w; simpl in *; rewrite ?Hi, ?Ho; set_solver.
  - intros key Hkey. destruct (Hrest key Hkey) as (Hr & H1 & H2 & Hnc).
    rewrite Hres, Hc, bool_decide_eq_false_2 by done.
    destruct w; simpl in *; rewrite ?Hi, ?Ho; set_solver.
Qed.

Lemma merge_inv d1 d2 conflict verbose stdin out stdin' :
  merge d1 d2 conflict verbose stdin = Ok (out, stdin') →
  ∃ w, (conflict = Keep2nd → w = Second) ∧ merged_as d1 d2 w out.
Proof.
  unfold merge. intros Hrun.
  destruct (for_each (merge_field d1 d2) _ _) as [st|] eqn:Hloop; [|done].
  cbn [bind] in Hrun.
  apply loop_spec in Hloop as [Hdone Hrest];
    [|apply schema_keys_NoDup|done|by unfold untouched; set_solver].
  assert (∀ k, k ∉ schema_keys → untouched st k) as Hun.
  { intros k Hk. apply (untouched_same _ _ _ (Hrest k Hk)).
    unfold untouched; set_solver. }
  destruct (0 <? length (conflicts st))%nat eqn:Hlen.
  - destruct conflict; cbn [bind] in Hrun.
    + cbn [bind fst snd] in Hrun.
      rewrite bool_decide_eq_false_2 in Hrun by (by vm_compute).
      destruct (for_each _ _ _) as [st'|] eqn:Hres; [|done].
      cbn [bind] in Hrun. injection Hrun as <- <-.
      exists Second. split; [done|]. by apply (resolved_merged_as _ _ Second st).
    + destruct (input stdin) as [[k rest]|]; [|done]. cbn [bind fst snd] in Hrun.
      case_bool_decide.
      * destruct (for_each _ _ _) as [st'|] eqn:Hres; [|done].
        cbn [bind] in Hrun. injection Hrun as <- <-.
        exists First. split; [done|]. by apply (resolved_merged_as _ _ First st).
      * destruct (for_each _ _ _) as [st'|] eqn:Hres; [|done].
        cbn [bind] in Hrun. injection Hrun as <- <-.
        exists Second. split; [done|]. by apply (resolved_merged_as _ _ Second st).
  - cbn [bind fst snd] in Hrun. injection Hrun as <- <-.
    exists Second. split; [done|].
    apply (resolved_merged_as _ _ Second st); [done..|].
    apply Nat.ltb_ge in Hlen. destruct (conflicts st); [done|simpl in Hlen; lia].
Qed.

(** ** [merge] returns *)

Lemma is_empty_ok v : finite_int v = true → ∃ b, is_empty v = Ok b.
Proof.
  destruct v as [s|z|f]; unfold is_empty, finite_int; simpl.
  - case_bool_decide; simpl; eauto.
  - destruct (float_of_int z); [|done]. simpl. intros _.
    destruct (is_nan _); simpl; eauto.
  - destruct (is_nan f); simpl; eauto.
Qed.

Lemma within_ok tol a b :
  is_str a = false → is_str b = false →
  finite_int a = true → finite_int b = true →
  ∃ r, (let* d := py_sub a b in
        let* ad := py_abs d in
        let* m := py_max a b in
        let* t := py_mul (VFloat tol) m in
        py_le ad t) = Ok r.
Proof.
  destruct a as [s|x|f], b as [t|y|g]; try done; intros _ _; simpl.
  - destruct (float_of_int x) eqn:Hx; [|done].
    destruct (float_of_int y) eqn:Hy; [|done]. intros _ _.
    destruct (x <? y)%Z; simpl; rewrite ?Hx, ?Hy; simpl; eauto.
  - destruct (float_of_int x) eqn:Hx; [|done]. intros _ _. simpl.
    destruct (cmp_int_float x g) as [[]|]; simpl; rewrite ?Hx; simpl; eauto.
  - destruct (float_of_int y) eqn:Hy; [|done]. intros _ _. simpl.
    destruct (cmp_int_float y f) as [[]|]; simpl; rewrite ?Hy; simpl; eauto.
  - intros _ _. destruct (f <? g)%float; simpl; eauto.
Qed.

Lemma are_equal_ok a b :
  finite_int a = true → finite_int b = true → ∃ r, are_equal a b = Ok r.
Proof.
  intros Ha Hb.
  destruct a as [s|x|f], b as [t|y|g];
    try (by eexists); by apply within_ok.
Qed.

Lemma are_close_enough_ok a b :
  finite_int a = true → finite_int b = true →
  ∃ r, are_close_enough a b = Ok r.
Proof.
  intros Ha Hb.
  destruct a as [s|x|f], b as [t|y|g];
    try (by eexists); by apply within_ok.
Qed.

Lemma classify_ok key v1 v2 :
  finite_int v1 = true → finite_int v2 = true →
  ∃ d, classify key v1 v2 = Ok d.
Proof.
  intros H1 H2. unfold classify.
  destruct (is_empty_ok _ H1) as [e1 ->], (is_empty_ok _ H2) as [e2 ->].
  destruct (are_equal_ok _ _ H1 H2) as [eq ->].
  destruct (are_close_enough_ok _ _ H1 H2) as [cl ->].
  destruct e1, e2, eq, cl; simpl; repeat case_bool_decide; eauto.
Qed.

Lemma loop_ok d1 d2 ks : ∀ st,
  finite_fields d1 d2 →
  (∀ k, k ∈ ks → k ∈ schema_keys) →
  ∃ st', for_each (merge_field d1 d2) ks st = Ok st'.
Proof.
  induction ks as [|key ks IH]; intros st Hfin Hsch; simpl; [eauto|].
  rewrite merge_field_classify by set_solver.
  destruct (Hfin key) as [H1 H2]; [set_solver|].
  destruct (classify_ok key _ _ H1 H2) as [d ->]. cbn [bind].
  apply IH; [done|set_solver].
Qed.

Lemma resolve_ok d i cs : ∀ st,
  (∀ k, k ∈ cs → k ∈ schema_keys) →
  ∃ st', for_each (resolve d i) cs st = Ok st'.
Proof.
  induction cs as [|key cs IH]; intros st Hsch; simpl; [eauto|].
  unfold resolve at 1. rewrite get_schema by set_solver. cbn [bind].
  apply IH. set_solver.
Qed.

Lemma loop_conflicts_schema d1 d2 st :
  for_each (merge_field d1 d2) schema_keys
    {| result := ∅; report := (∅, ∅); conflicts := [] |} = Ok st →
  ∀ k, k ∈ conflicts st → k ∈ schema_keys.
Proof.
  intros Hloop k Hk.
  apply loop_spec in Hloop as [_ Hrest];
    [|apply schema_keys_NoDup|done|by unfold untouched; set_solver].
  destruct (decide (k ∈ schema_keys)) as [|Hout]; [done|].
  destruct (Hrest k Hout) as (_ & _ & _ & Hc). apply Hc in Hk. set_solver.
Qed.

Lemma merge_keep2nd_returns d1 d2 verbose stdin :
  finite_fields d1 d2 →
  ∃ out, merge d1 d2 Keep2nd verbose stdin = Ok (out, stdin).
Proof.
  intros Hfin. unfold merge.
  destruct (loop_ok d1 d2 schema_keys
              {| result := ∅; report := (∅, ∅); conflicts := [] |} Hfin)
    as [st Hloop]; [done|].
  rewrite Hloop. cbn [bind].
  destruct (0 <? length (conflicts st))%nat; cbn [bind fst snd]; [|eauto].
  rewrite bool_decide_eq_false_2 by (by vm_compute).
  destruct (resolve_ok d2 Second (conflicts st) st) as [st' ->]; [|simpl; eauto].
  by apply (loop_conflicts_schema d1 d2).
Qed.

Lemma merge_interactive_returns d1 d2 verbose line stdin :
  finite_fields d1 d2 →
  ∃ out stdin',
    merge d1 d2 Interactive verbose (line :: stdin) = Ok (out, stdin') ∧
    (stdin' = stdin ∨ out.2 = [] ∧ stdin' = line :: stdin).
Proof.
  intros Hfin. unfold merge.
  destruct (loop_ok d1 d2 schema_keys
              {| result := ∅; report := (∅, ∅); conflicts := [] |} Hfin)
    as [st Hloop]; [done|].
  rewrite Hloop. cbn [bind].
  destruct (0 <? length (conflicts st))%nat eqn:Hlen; cbn [bind fst snd input].
  - pose proof (loop_conflicts_schema d1 d2 st Hloop) as Hsch.
    case_bool_decide.
    + destruct (resolve_ok d1 First (conflicts st) st Hsch) as [st' ->].
      simpl; eauto.
    + destruct (resolve_ok d2 Second (conflicts st) st Hsch) as [st' ->].
      simpl; eauto.
  - apply Nat.ltb_ge in Hlen. do 2 eexists. split; [done|]. right.
    split; [|done]. simpl. destruct (conflicts st); [done|simpl in Hlen; lia].
Qed.

Lemma merge_interactive_eof d1 d2 verbose out stdin' :
  merge d1 d2 Interactive verbose [] = Ok (out, stdin') → out.2 = [].
Proof.
  unfold merge. intros Hrun.
  destruct (for_each (merge_field d1 d2) _ _) as [st|]; [|done].
  cbn [bind] in Hrun.
  destruct (conflicts st) as [|k cs] eqn:Hcs; simpl in Hrun; [|done].
  injection Hrun as <- <-. done.
Qed.

(** ** Binary64 facts behind the comparators *)

Lemma SFcompare_antisym x y :
  SFcompare y x = option_map CompOpp (SFcompare x y).
Proof.
  destruct x as [sx|sx| |sx mx ex], y as [sy|sy| |sy my ey]; simpl;
    try (destruct sx); try (destruct sy); try reflexivity.
  all: rewrite (Z.compare_antisym ex ey); destruct (ex ?= ey)%Z; simpl;
    try reflexivity.
  all: pose proof (Pos.compare_cont_antisym mx my Eq) as H; simpl in H;
    rewrite <- H; destruct (Pos.compare_cont Eq mx my); reflexivity.
Qed.

Lemma SFabs_binary_round_aux s mx ex lx :
  SFabs (binary_round_aux prec emax s mx ex lx) =
  SFabs (binary_round_aux prec emax false mx ex lx).
Proof.
  unfold binary_round_aux.
  destruct (shr_fexp prec emax mx ex lx) as [mrs' e'].
  destruct (shr_fexp prec emax _ e' loc_Exact) as [mrs'' e''].
  destruct (shr_m mrs''); try reflexivity.
  destruct (e'' <=? emax - prec)%Z; reflexivity.
Qed.

Lemma SFabs_binary_normalize_opp z e :
  SFabs (binary_normalize prec emax (- z) e false) =
  SFabs (binary_normalize prec emax z e false).
Proof.
  destruct z; simpl; try reflexivity; unfold binary_round;
    destruct (shl_align _ _ _); rewrite (SFabs_binary_round_aux true); reflexivity.
Qed.

Lemma SFabs_sub_comm x y :
  SFabs (SF64sub x y) = SFabs (SF64sub y x).
Proof.
  destruct x as [sx|sx| |sx mx ex], y as [sy|sy| |sy my ey]; simpl;
    try (destruct sx); try (destruct sy); try reflexivity.
  all: rewrite (Z.min_comm ey ex), <- SFabs_binary_normalize_opp; f_equal; f_equal; unfold cond_Zopp; lia.
Qed.

Lemma abs_sub_comm (f g : float) : abs (f - g) = abs (g - f).
Proof.
  apply Prim2SF_inj. rewrite !abs_spec, !sub_spec. apply SFabs_sub_comm.
Qed.

Lemma SFcompare_Eq_inv x y :
  SFcompare x y = Some Eq →
  x = y ∨ ∃ sx sy, x = S754_zero sx ∧ y = S754_zero sy.
Proof.
  destruct x as [sx|sx| |sx mx ex], y as [sy|sy| |sy my ey]; simpl;
    try discriminate; try (destruct sx; discriminate);
    try (destruct sy; discriminate).
  - intros _. right. eauto.
  - destruct sx, sy; try discriminate; auto.
  - intros H. left.
    destruct sx, sy; try discriminate;
      destruct (ex ?= ey)%Z eqn:He; try discriminate;
      apply Z.compare_eq in He; subst ey;
      destruct (Pos.compare_cont Eq mx my) eqn:Hm; try discriminate;
      apply Pos.compare_eq in Hm; subst my; reflexivity.
Qed.

Lemma SFleb_mul_eq d t x y :
  SFcompare x y = Some Eq →
  SFleb d (SF64mul t x) = SFleb d (SF64mul t y).
Proof.
  intros [->|(sx & sy & -> & ->)]%SFcompare_Eq_inv; [reflexivity|].
  destruct t as [st|st| |st mt et]; simpl; try reflexivity;
    destruct d as [sd|sd| |sd md ed]; reflexivity.
Qed.

Lemma iter_pos_iter {A} (f : A → A) n : ∀ x, SpecFloat.iter_pos f n x = Pos.iter f x n.
Proof.
  induction n as [n IH|n IH|]; intros x; simpl; rewrite ?IH; try reflexivity.
  now rewrite <- !Pos.iter_swap.
Qed.

Lemma shr_exact m d :
  SpecFloat.iter_pos shr_1 d {| shr_m := Z.pos (Pos.iter xO m d); shr_r := false; shr_s := false |} =
  {| shr_m := Z.pos m; shr_r := false; shr_s := false |}.
Proof.
  rewrite iter_pos_iter. revert m.
  induction d as [|d IH] using Pos.peano_ind; intros m; [reflexivity|].
  rewrite (Pos.iter_succ_r d _ shr_1), (Pos.iter_succ d _ xO). simpl. apply IH.
Qed.

Lemma digits2_iter m d :
  Z.pos (digits2_pos (Pos.iter xO m d)) = (Z.pos (digits2_pos m) + Z.pos d)%Z.
Proof.
  induction d as [|d IH] using Pos.peano_ind; simpl; [lia|].
  rewrite Pos.iter_succ. simpl. lia.
Qed.

Lemma pos_iter_xO m d : Z.pos (Pos.iter xO m d) = (Z.pos m * 2 ^ Z.pos d)%Z.
Proof.
  induction d as [|d IH] using Pos.peano_ind; [simpl; lia|].
  rewrite Pos.iter_succ, Pos2Z.inj_succ, Z.pow_succ_r by lia.
  rewrite Pos2Z.inj_xO, IH. lia.
Qed.

Lemma round_canonical s m e :
  bounded prec emax m e = true →
  binary_round_aux prec emax s (Z.pos m) e loc_Exact = S754_finite s m e.
Proof.
  unfold bounded, canonical_mantissa. intros [Hc He]%andb_prop.
  apply Z.eqb_eq in Hc.
  unfold binary_round_aux, shr_fexp. simpl Zdigits2. rewrite Hc, Z.sub_diag. simpl.
  rewrite Hc, Z.sub_diag. simpl. now rewrite He.
Qed.

Lemma binary_round_exact_pos s m d :
  bounded prec emax m (Z.pos d) = true →
  binary_round prec emax s (Pos.iter xO m d) 0 = S754_finite s m (Z.pos d).
Proof.
  intros Hb. pose proof Hb as [Hc He]%andb_prop.
  unfold canonical_mantissa in Hc. apply Z.eqb_eq in Hc.
  unfold binary_round. rewrite Z.add_0_r, digits2_iter, Hc.
  unfold shl_align. rewrite Z.sub_0_r. cbv beta iota.
  unfold binary_round_aux, shr_fexp at 1. simpl Zdigits2.
  rewrite Z.add_0_r, digits2_iter, Hc, Z.sub_0_r.
  unfold shr. simpl shr_record_of_loc. rewrite shr_exact. cbv beta iota.
  simpl loc_of_shr_record. simpl round_nearest_even. simpl shr_m.
  unfold shr_fexp. simpl Zdigits2. rewrite Z.add_0_l, Hc, Z.sub_diag.
  simpl. now rewrite He.
Qed.

Lemma binary_round_exact_neg s p d :
  bounded prec emax (Pos.iter xO p d) (Z.neg d) = true →
  binary_round prec emax s p 0 = S754_finite s (Pos.iter xO p d) (Z.neg d).
Proof.
  intros Hb. pose proof Hb as [Hc He]%andb_prop.
  unfold canonical_mantissa in Hc. apply Z.eqb_eq in Hc.
  rewrite digits2_iter in Hc.
  unfold binary_round.
  replace (Z.pos (digits2_pos p) + 0)%Z
    with (Z.pos (digits2_pos p) + Z.pos d + Z.neg d)%Z by lia.
  rewrite Hc. unfold shl_align. rewrite Z.sub_0_r. cbv beta iota.
  by apply round_canonical.
Qed.

Lemma normalize_exact s m e z :
  bounded prec emax m e = true →
  (if (0 <=? e)%Z then (z ?= cond_Zopp s (Z.pos m) * 2 ^ e)%Z
   else (z * 2 ^ (- e) ?= cond_Zopp s (Z.pos m))%Z) = Eq →
  binary_normalize prec emax z 0 false = S754_finite s m e.
Proof.
  intros Hb Hz. destruct e as [|d|d]; simpl in Hz; apply Z.compare_eq in Hz.
  - rewrite Z.mul_1_r in Hz. subst z.
    assert (binary_round prec emax s m 0 = S754_finite s m 0) as Hr.
    { pose proof Hb as [Hc He]%andb_prop.
      unfold canonical_mantissa in Hc. apply Z.eqb_eq in Hc.
      unfold binary_round. rewrite Hc. unfold shl_align. rewrite Z.sub_0_r.
      by apply round_canonical. }
    by destruct s.
  - rewrite <- (binary_round_exact_pos s m d Hb).
    change (Z.pow_pos 2 d) with (2 ^ Z.pos d)%Z in Hz.
    destruct s; simpl in Hz; subst z.
    + rewrite Z.mul_opp_l, <- pos_iter_xO. reflexivity.
    + rewrite <- pos_iter_xO. reflexivity.
  - change (- Z.neg d)%Z with (Z.pos d) in Hz.
    destruct z as [|p|p]; [by destruct s| |].
    + rewrite <- pos_iter_xO in Hz. destruct s; [done|].
      simpl in Hz. injection Hz as <-. by apply binary_round_exact_neg.
    + change (Z.neg p) with (- Z.pos p)%Z in Hz.
      rewrite Z.mul_opp_l, <- pos_iter_xO in Hz. destruct s; [|done].
      simpl in Hz. injection Hz as <-. by apply binary_round_exact_neg.
Qed.

(** ** The numeric test does not depend on the order of its operands *)

Lemma SFcompare_nan_r x : SFcompare x S754_nan = None.
Proof. by destruct x. Qed.

Lemma SFcompare_refl_finite s m e :
  SFcompare (S754_finite s m e) (S754_finite s m e) = Some Eq.
Proof.
  simpl. rewrite Z.compare_refl, Pos.compare_cont_refl. by destruct s.
Qed.

Lemma SFcompare_None_sub x y : SFcompare x y = None → SF64sub x y = S754_nan.
Proof.
  destruct x as [sx|sx| |sx mx ex], y as [sy|sy| |sy my ey]; simpl;
    intros H; try discriminate; reflexivity.
Qed.

Lemma float_test_nan tol f g m :
  SFcompare (Prim2SF f) (Prim2SF g) = None →
  (abs (f - g) <=? tol * m)%float = false.
Proof.
  intros H. by rewrite leb_spec, abs_spec, sub_spec, (SFcompare_None_sub _ _ H).
Qed.

Lemma float_test_eq tol d f g :
  SFcompare (Prim2SF f) (Prim2SF g) = Some Eq →
  (d <=? tol * f)%float = (d <=? tol * g)%float.
Proof. intros H. rewrite !leb_spec, !mul_spec. by apply SFleb_mul_eq. Qed.

Lemma cmp_int_float_None x g :
  cmp_int_float x g = None → Prim2SF g = S754_nan.
Proof. unfold cmp_int_float. by destruct (Prim2SF g). Qed.

Lemma cmp_int_float_Eq x g f :
  cmp_int_float x g = Some Eq → float_of_int x = Ok f →
  SFcompare (Prim2SF f) (Prim2SF g) = Some Eq.
Proof.
  unfold cmp_int_float, float_of_int. pose proof (Prim2SF_valid g) as Hv.
  destruct (Prim2SF g) as [s|s| |s m e] eqn:Hg; try done.
  - intros [= ->%Z.compare_eq] [= <-]. reflexivity.
  - by destruct s.
  - intros [= Hc]. rewrite (normalize_exact s m e x Hv Hc).
    intros Hf.
    assert (f = SF2Prim (S754_finite s m e)) as -> by congruence.
    rewrite Prim2SF_SF2Prim by done. apply SFcompare_refl_finite.
Qed.

Lemma within_float_comm tol f g :
  within tol (VFloat f) (VFloat g) = within tol (VFloat g) (VFloat f).
Proof.
  unfold within. simpl. rewrite (abs_sub_comm g f), !ltb_spec. unfold SFltb.
  rewrite (SFcompare_antisym (Prim2SF f) (Prim2SF g)).
  destruct (SFcompare (Prim2SF f) (Prim2SF g)) as [[]|] eqn:Hc; simpl;
    f_equal; try done.
  - by apply float_test_eq.
  - by rewrite !float_test_nan.
Qed.

Lemma within_int_float_comm tol x g :
  within tol (VInt x) (VFloat g) = within tol (VFloat g) (VInt x).
Proof.
  unfold within. simpl.
  destruct (float_of_int x) as [f|e] eqn:Hx; simpl; [|done].
  rewrite (abs_sub_comm g f).
  destruct (cmp_int_float x g) as [[]|] eqn:Hc; simpl; rewrite ?Hx; simpl;
    f_equal; try done.
  - by apply float_test_eq, (cmp_int_float_Eq x).
  - apply cmp_int_float_None in Hc.
    rewrite !float_test_nan; [done|by rewrite Hc, SFcompare_nan_r..].
Qed.

Lemma within_int_comm tol x y :
  within tol (VInt x) (VInt y) = within tol (VInt y) (VInt x).
Proof.
  unfold within. simpl. replace (y - x)%Z with (- (x - y))%Z by lia.
  rewrite Z.abs_opp.
  destruct (Z.ltb_spec x y), (Z.ltb_spec y x); try lia; simpl; try done.
  by replace y with x by lia.
Qed.

Lemma within_comm tol a b : within tol a b = within tol b a.
Proof.
  destruct a as [s|x|f], b as [t|y|g]; try done.
  - apply within_int_comm.
  - apply within_int_float_comm.
  - symmetry. apply within_int_float_comm.
  - apply within_float_comm.
Qed.

Lemma are_equal_within a b :
  is_str a = false → is_str b = false →
  are_equal a b = within tol_equal a b.
Proof. by destruct a, b. Qed.

Lemma are_close_enough_within a b :
  is_str a = false → is_str b = false →
  are_close_enough a b = within tol_close a b.
Proof. by destruct a, b. Qed.

(** C7: [are_equal] and [are_close_enough] give the same answer, or raise
    the same exception, whichever way round their two operands are given,
    be they strings, integers or floats. *)
Theorem comparators_commute (a b : value) :
  are_equal a b = are_equal b a ∧
  are_close_enough a b = are_close_enough b a.
Proof.
  destruct (is_str a) eqn:Ha, (is_str b) eqn:Hb.
  - destruct a as [s| |], b as [t| |]; try done. simpl.
    split; f_equal; apply bool_decide_ext; naive_solver.
  - by destruct a, b.
  - by destruct a, b.
  - rewrite !are_equal_within, !are_close_enough_within by done.
    split; apply within_comm.
Qed.

(** ** The strict test on negative numbers *)

(** C2: on the operands [-1.0] and [-1.0], and on the integers [-1] and
    [-1], whose difference is zero, [are_equal] answers [False]: the
    tolerance is taken from [max(a, b)], which is negative there, and not
    from the larger magnitude. *)
Theorem are_equal_negative_operands :
  are_equal (VFloat (-1)) (VFloat (-1)) = Ok false ∧
  are_equal (VInt (-1)) (VInt (-1)) = Ok false.
Proof. split; by vm_compute. Qed.

(** C6: on the operand [tiny_neg], about [-4.94e-322], taken twice,
    [are_equal] answers [True] and [are_close_enough] answers [False]: the
    product of [2e-3] and the negative maximum rounds to minus zero, the
    product of [0.05] and it does not. *)
Theorem strict_not_tolerant_tiny_negative :
  are_equal (VFloat tiny_neg) (VFloat tiny_neg) = Ok true ∧
  are_close_enough (VFloat tiny_neg) (VFloat tiny_neg) = Ok false.
Proof. split; by vm_compute. Qed.

(** ** The accessor and the schema *)

(** C8: on a record whose keys are keys of the schema, [get] raises, and
    then [ValueError], exactly for the names that are not in the schema; a
    name of the schema with no stored value gives the empty string. *)
Theorem get_raises_iff (d : DeviceCarbonFootprint) (key : pystr) :
  well_typed d →
  (get d key = Raise ValueError ↔ key ∉ schema_keys) ∧
  ((∃ v, get d key = Ok v) ↔ key ∈ schema_keys) ∧
  (key ∈ schema_keys → data d !! key = None → get d key = Ok (VStr [])).
Proof using Type.
  clear str_lower float_repr. unfold well_typed, get. intros Hwt.
  destruct (data d !! key) as [v|] eqn:Hv.
  - assert (key ∈ schema_keys) as Hin.
    { apply (elem_of_list_to_set (C := gset pystr)), Hwt, elem_of_dom. eauto. }
    split_and!; [naive_solver|naive_solver|done].
  - case_bool_decide; split_and!; naive_solver.
Qed.

(** ** The row formatter *)

Lemma list_comp_get d ks :
  (∀ k, k ∈ ks → k ∈ schema_keys) →
  list_comp (get d) ks = Ok (field d <$> ks).
Proof using Type.
  clear str_lower float_repr.
  induction ks as [|k ks IH]; intros Hsch; simpl; [done|].
  rewrite get_schema by set_solver. simpl. rewrite IH by set_solver. done.
Qed.

Lemma double_quotes_plain delim f :
  existsb (csv_special delim) f = false →
  replace_char quotechar [quotechar; quotechar] f = f.
Proof.
  induction f as [|c f IH]; [done|]. simpl.
  intros [Hc Hf]%orb_false_elim. unfold replace_char in *. simpl.
  rewrite (IH Hf). unfold csv_special in Hc.
  destruct (c =? quotechar)%N; [|done].
  by rewrite orb_true_r in Hc.
Qed.

Lemma join_append_quote delim rec n f :
  join_append delim (rec, n) f =
  (rec ++ (if (0 <? n)%nat then [delim] else []) ++ csv_quote delim f, S n).
Proof.
  unfold join_append, join_append_data, csv_quote.
  destruct (existsb (csv_special delim) f) eqn:Hq; [done|].
  fold (replace_char quotechar [quotechar; quotechar] f).
  by rewrite (double_quotes_plain delim).
Qed.

Lemma foldl_join_append delim fields : ∀ rec n,
  foldl (join_append delim) (rec, S n) fields =
  (rec ++ concat ((λ y, delim :: csv_quote delim y) <$> fields),
   (S n + length fields)%nat).
Proof.
  induction fields as [|f fields IH]; intros rec n; cbn [foldl].
  - simpl. by rewrite app_nil_r, Nat.add_0_r.
  - rewrite join_append_quote, IH. simpl. rewrite <- !app_assoc.
    do 2 f_equal. lia.
Qed.

Lemma csv_writerow_join delim row :
  (2 ≤ length row)%nat →
  csv_writerow delim row = join delim (csv_quote delim <$> row) ++ [13; 10]%N.
Proof.
  destruct row as [|f1 [|f2 rest]]; simpl; try lia. intros _.
  unfold csv_writerow. cbn [foldl].
  rewrite !join_append_quote, foldl_join_append. simpl.
  rewrite <- list_fmap_compose.
  rewrite !length_app. simpl length.
  replace (_ =? 0)%nat with false by (symmetry; apply Nat.eqb_neq; lia).
  f_equal. rewrite <- app_assoc. reflexivity.
Qed.

(** C9: [as_csv_row] writes the fields in the order of the schema,
    separated by [;] in the [Fr] format and by [,] in the [Us] format,
    each field being [str] of the value the accessor gives, but for a
    float in the [Fr] format, where every [.] of it is replaced by [,];
    the CSV writer quotes a field that holds the delimiter, a quote or a
    line break, and ends the line by CR LF. *)
Theorem as_csv_row_layout (d : DeviceCarbonFootprint) (fmt : csv_format) :
  as_csv_row d fmt =
  Ok (join (delimiter fmt)
        ((λ key, csv_quote (delimiter fmt) (cell fmt (field d key)))
           <$> schema_keys)
      ++ [13; 10]%N).
Proof using float_repr.
  clear str_lower. unfold as_csv_row. rewrite list_comp_get by done. cbn [bind]. f_equal.
  unfold _format_csv_row.
  rewrite csv_writerow_join by (rewrite !length_fmap; vm_compute; lia).
  rewrite <- !list_fmap_compose. fold (delimiter fmt). do 2 f_equal.
  apply list_fmap_ext. intros _ key _. cbn [compose]. f_equal.
  by destruct fmt, (field d key).
Qed.

Lemma cell_us v : cell Us v = py_str v.
Proof. by destruct v. Qed.

Lemma cell_fr_not_float v : is_float v = false → cell Fr v = py_str v.
Proof. by destruct v. Qed.

Lemma cell_fr_float_no_point f : 46%N ∉ cell Fr (VFloat f).
Proof.
  simpl. unfold replace_char. intros Hin.
  apply list_elem_of_bind in Hin as (c & Hc & _).
  destruct (N.eqb_spec c 46); set_solver.
Qed.

Lemma csv_quote_plain delim s :
  Forall (λ c, csv_special delim c = false) s → csv_quote delim s = s.
Proof.
  intros Hs. unfold csv_quote.
  destruct (existsb _ s) eqn:Hex; [|done].
  apply existsb_exists in Hex as (c & Hc & Hsp).
  rewrite Forall_forall in Hs. apply list_elem_of_In, Hs in Hc. congruence.
Qed.

(** ** The properties of [merge] *)

Lemma classify_conflict key v1 v2 :
  is_conflict key v1 v2 → classify key v1 v2 = Ok Escalate.
Proof.
  unfold is_conflict, classify. intros (-> & -> & -> & -> & ? & ?). simpl.
  by rewrite !bool_decide_eq_false_2.
Qed.

Lemma merged_as_kept d1 d2 w out key :
  merged_as d1 d2 w out → key ∈ schema_keys →
  ∃ i, kept d1 d2 i (data out.1.1) out.1.2 key.
Proof.
  intros [Hall _] Hkey. destruct (Hall key Hkey) as ([i|] & _ & H).
  - exists i. by destruct H.
  - exists w. by destruct H.
Qed.

(** C1: under the keep-second policy, on records [merge] can compare,
    [merge] returns, and every field that no rule resolves has record B's
    value in the merged record, is in the second provenance set (and not
    in the first) and is in the returned list of conflicts. *)
Theorem merge_keep2nd_conflicts (d1 d2 : DeviceCarbonFootprint)
    (verbose : Z) (stdin : list pystr) :
  finite_fields d1 d2 →
  ∃ m rep cs,
    merge d1 d2 Keep2nd verbose stdin = Ok (m, rep, cs, stdin) ∧
    ∀ key, key ∈ schema_keys →
      is_conflict key (field d1 key) (field d2 key) →
      data m !! key = Some (field d2 key) ∧
      key ∈ rep.2 ∧ (key ∉ rep.1) ∧ key ∈ cs.
Proof.
  intros Hfin.
  destruct (merge_keep2nd_returns d1 d2 verbose stdin Hfin)
    as [[[m rep] cs] Hrun].
  exists m, rep, cs. split; [done|]. intros key Hkey Hc.
  destruct (merge_inv _ _ _ _ _ _ _ Hrun) as (w & Hw & Hall & _).
  rewrite (Hw eq_refl) in Hall.
  destruct (Hall key Hkey) as (d & Hd & H).
  rewrite (classify_conflict _ _ _ Hc) in Hd. injection Hd as <-.
  by destruct H as [(? & ? & ?) ?].
Qed.

(** C4: when [merge] returns, the two provenance sets are disjoint,
    their union is the set of the schema's field names, and the merged
    record stores a value for every field of the schema and for nothing
    else. *)
Theorem merge_report_partition (d1 d2 : DeviceCarbonFootprint)
    (conflict : conflict_policy) (verbose : Z) (stdin stdin' : list pystr)
    (m : DeviceCarbonFootprint) (rep : gset pystr * gset pystr)
    (cs : list pystr) :
  merge d1 d2 conflict verbose stdin = Ok (m, rep, cs, stdin') →
  rep.1 ## rep.2 ∧
  rep.1 ∪ rep.2 = list_to_set schema_keys ∧
  (∀ key, key ∈ schema_keys → is_Some (data m !! key)) ∧
  dom (data m) = list_to_set schema_keys.
Proof.
  intros Hrun. destruct (merge_inv _ _ _ _ _ _ _ Hrun) as (w & _ & Hm).
  pose proof (λ key, merged_as_kept _ _ _ _ key Hm) as Hkept.
  destruct Hm as [_ Hrest]. cbn [fst snd] in *.
  assert (∀ key, key ∈ schema_keys → is_Some (data m !! key)) as Hsome.
  { intros key Hkey. destruct (Hkept key Hkey) as (i & Hv & _). eauto. }
  split_and!; [| |done|].
  - apply elem_of_disjoint. intros key H1 H2.
    destruct (decide (key ∈ schema_keys)) as [Hkey|Hkey].
    + destruct (Hkept key Hkey) as ([] & _ & _ & Hout); by apply Hout.
    + by destruct (Hrest key Hkey) as (_ & Hout & _).
  - apply set_eq. intros key. rewrite elem_of_union, elem_of_list_to_set.
    split.
    + intros Hin. destruct (decide (key ∈ schema_keys)) as [|Hkey]; [done|].
      destruct (Hrest key Hkey) as (_ & ? & ? & _). tauto.
    + intros Hkey. destruct (Hkept key Hkey) as ([] & _ & Hin & _); auto.
  - apply set_eq. intros key. rewrite elem_of_dom, elem_of_list_to_set.
    split; [|by apply Hsome].
    intros [v Hv]. destruct (decide (key ∈ schema_keys)) as [|Hkey]; [done|].
    destruct (Hrest key Hkey) as (Hnone & _). congruence.
Qed.

(** C5: when [merge] returns, a field of the schema that is empty on one
    side only has the value of the other side and is in that side's set;
    a field empty on both sides has record B's value and is in the second
    set. *)
Theorem merge_emptiness (d1 d2 : DeviceCarbonFootprint)
    (conflict : conflict_policy) (verbose : Z) (stdin stdin' : list pystr)
    (m : DeviceCarbonFootprint) (rep : gset pystr * gset pystr)
    (cs : list pystr) (key : pystr) :
  merge d1 d2 conflict verbose stdin = Ok (m, rep, cs, stdin') →
  key ∈ schema_keys →
  (is_empty (field d1 key) = Ok false → is_empty (field d2 key) = Ok true →
   data m !! key = Some (field d1 key) ∧ key ∈ rep.1 ∧ (key ∉ rep.2)) ∧
  (is_empty (field d1 key) = Ok true → is_empty (field d2 key) = Ok false →
   data m !! key = Some (field d2 key) ∧ key ∈ rep.2 ∧ (key ∉ rep.1)) ∧
  (is_empty (field d1 key) = Ok true → is_empty (field d2 key) = Ok true →
   data m !! key = Some (field d2 key) ∧ key ∈ rep.2 ∧ (key ∉ rep.1)).
Proof.
  intros Hrun Hkey.
  destruct (merge_inv _ _ _ _ _ _ _ Hrun) as (w & _ & Hall & _).
  destruct (Hall key Hkey) as (d & Hd & H). unfold classify in Hd.
  split_and!; intros H1 H2; rewrite H1, H2 in Hd; simpl in Hd;
    injection Hd as <-; by destruct H as [? _].
Qed.

(** C10: when [merge] returns, what the accessor reads from the merged
    record for a field of the schema is what it reads from record A or
    what it reads from record B. *)
Theorem merge_value_from_input (d1 d2 : DeviceCarbonFootprint)
    (conflict : conflict_policy) (verbose : Z) (stdin stdin' : list pystr)
    (m : DeviceCarbonFootprint) (rep : gset pystr * gset pystr)
    (cs : list pystr) (key : pystr) :
  merge d1 d2 conflict verbose stdin = Ok (m, rep, cs, stdin') →
  key ∈ schema_keys →
  get m key = get d1 key ∨ get m key = get d2 key.
Proof.
  intros Hrun Hkey.
  destruct (merge_inv _ _ _ _ _ _ _ Hrun) as (w & _ & Hm).
  destruct (merged_as_kept _ _ _ _ key Hm Hkey) as (i & Hv & _).
  simpl in Hv. rewrite (get_stored _ _ _ Hv), !get_schema by done.
  destruct i; auto.
Qed.

(** C3: merging [device_neg], whose only stored field is the footprint
    [-1.0], with itself under the keep-second policy returns the field
    [gwp_total] in the list of conflicts. *)
Theorem merge_self_negative :
  returned_conflicts (merge device_neg device_neg Keep2nd 0 []) =
  Some [lit "gwp_total"].
Proof. vm_compute. reflexivity. Qed.

Lemma finite_fields_check d1 d2 :
  forallb (λ key, finite_int (field d1 key) && finite_int (field d2 key))
    schema_keys = true →
  finite_fields d1 d2.
Proof.
  intros H key Hkey. rewrite forallb_forall in H.
  apply list_elem_of_In, H, andb_prop in Hkey. done.
Qed.

End Python.

(** ** The properties on the sample records *)

Lemma merge_keep2nd_conflicts_witness :
  ∃ m rep cs,
    merge ascii_lower device_a device_b Keep2nd 0 [] = Ok (m, rep, cs, []) ∧
    data m !! lit "category" = Some (VStr (lit "Desktop")) ∧
    lit "category" ∈ rep.2 ∧ (lit "category" ∉ rep.1) ∧ lit "category" ∈ cs.
Proof.
  destruct (merge_keep2nd_conflicts ascii_lower device_a device_b 0 [])
    as (m & rep & cs & Hrun & H).
  { apply finite_fields_check. vm_compute. reflexivity. }
  exists m, rep, cs. split; [exact Hrun|].
  apply (H (lit "category")).
  - apply (bool_decide_unpack _). vm_compute. reflexivity.
  - repeat split; try (vm_compute; reflexivity).
    + apply (bool_decide_unpack _). vm_compute. reflexivity.
    + apply (bool_decide_unpack _). vm_compute. reflexivity.
Defined.

Lemma merge_report_partition_witness :
  ∃ m rep cs,
    merge ascii_lower device_a device_b Keep2nd 0 [] = Ok (m, rep, cs, []) ∧
    rep.1 ## rep.2 ∧ rep.1 ∪ rep.2 = list_to_set schema_keys ∧
    (∀ key, key ∈ schema_keys → is_Some (data m !! key)) ∧
    dom (data m) = list_to_set schema_keys.
Proof.
  destruct (merge_keep2nd_returns ascii_lower device_a device_b 0 [])
    as [[[m rep] cs] Hrun].
  { apply finite_fields_check. vm_compute. reflexivity. }
  exists m, rep, cs. split; [exact Hrun|].
  exact (merge_report_partition ascii_lower _ _ _ _ _ _ _ _ _ Hrun).
Defined.

Lemma merge_emptiness_witness :
  ∃ m rep cs,
    merge ascii_lower device_a device_b Keep2nd 0 [] = Ok (m, rep, cs, []) ∧
    (data m !! lit "weight" = Some (VFloat 1.5) ∧
     lit "weight" ∈ rep.1 ∧ (lit "weight" ∉ rep.2)) ∧
    (data m !! lit "lifetime" = Some (VFloat 4) ∧
     lit "lifetime" ∈ rep.2 ∧ (lit "lifetime" ∉ rep.1)) ∧
    (data m !! lit "comment" = Some (VStr []) ∧
     lit "comment" ∈ rep.2 ∧ (lit "comment" ∉ rep.1)).
Proof.
  destruct (merge_keep2nd_returns ascii_lower device_a device_b 0 [])
    as [[[m rep] cs] Hrun].
  { apply finite_fields_check. vm_compute. reflexivity. }
  exists m, rep, cs. split; [exact Hrun|].
  pose proof (λ key, merge_emptiness ascii_lower _ _ _ _ _ _ _ _ _ key Hrun)
    as H.
  destruct (H (lit "weight")) as (Hw & _ & _);
    [apply (bool_decide_unpack _); vm_compute; reflexivity|].
  destruct (H (lit "lifetime")) as (_ & Hl & _);
    [apply (bool_decide_unpack _); vm_compute; reflexivity|].
  destruct (H (lit "comment")) as (_ & _ & Hc);
    [apply (bool_decide_unpack _); vm_compute; reflexivity|].
  split; [|split].
  - apply Hw; vm_compute; reflexivity.
  - apply Hl; vm_compute; reflexivity.
  - apply Hc; vm_compute; reflexivity.
Defined.

Lemma merge_value_from_input_witness :
  ∃ m rep cs,
    merge ascii_lower device_a device_b Keep2nd 0 [] = Ok (m, rep, cs, []) ∧
    (get m (lit "name") = get device_a (lit "name") ∨
     get m (lit "name") = get device_b (lit "name")).
Proof.
  destruct (merge_keep2nd_returns ascii_lower device_a device_b 0 [])
    as [[[m rep] cs] Hrun].
  { apply finite_fields_check. vm_compute. reflexivity. }
  exists m, rep, cs. split; [exact Hrun|].
  apply (merge_value_from_input ascii_lower _ _ _ _ _ _ _ _ _ _ Hrun).
  apply (bool_decide_unpack _). vm_compute. reflexivity.
Defined.

Lemma get_raises_iff_witness :
  (get device_a (lit "serial") = Raise ValueError ↔
   lit "serial" ∉ schema_keys) ∧
  ((∃ v, get device_a (lit "serial") = Ok v) ↔ lit "serial" ∈ schema_keys) ∧
  (lit "serial" ∈ schema_keys → data device_a !! lit "serial" = None →
   get device_a (lit "serial") = Ok (VStr [])).
Proof.
  apply (get_raises_iff device_a (lit "serial")).
  apply (bool_decide_unpack _). vm_compute. reflexivity.
Defined.

(** * Further properties *)

(** ** Strings: stripping, replacing, collapsing *)


Lemma lstrip_white l s : white l → lstrip (l ++ s) = lstrip s.
Proof.
  induction 1 as [|c l Hc _ IH]; [done|]. simpl. by rewrite Hc.
Qed.

Lemma lstrip_head s :
  (∀ c, head s = Some c → isspace c = false) → lstrip s = s.
Proof.
  destruct s as [|c s]; [done|]. intros H. simpl. by rewrite (H c).
Qed.

Lemma lstrip_split s :
  ∃ l, white l ∧ s = l ++ lstrip s ∧
       ∀ c, head (lstrip s) = Some c → isspace c = false.
Proof.
  induction s as [|c s (l & Hl & Hs & Hh)].
  - exists []. by split; [constructor|].
  - simpl. destruct (isspace c) eqn:Hc.
    + exists (c :: l). split; [by constructor|]. split; [|done].
      simpl. by f_equal.
    + exists []. split; [constructor|]. split; [done|].
      simpl. by intros ? [= <-].
Qed.

Lemma rstrip_white s r : white r → rstrip (s ++ r) = rstrip s.
Proof.
  intros Hr. unfold rstrip. rewrite reverse_app, lstrip_white; [done|].
  unfold white. by apply Forall_reverse.
Qed.

Lemma rstrip_last s :
  (∀ c, last s = Some c → isspace c = false) → rstrip s = s.
Proof.
  intros H. unfold rstrip. rewrite lstrip_head, reverse_involutive; [done|].
  intros c. rewrite head_reverse. apply H.
Qed.

Lemma rstrip_split s :
  ∃ r, white r ∧ s = rstrip s ++ r ∧
       ∀ c, last (rstrip s) = Some c → isspace c = false.
Proof.
  destruct (lstrip_split (reverse s)) as (l & Hl & Hs & Hh).
  exists (reverse l). split; [by apply Forall_reverse|]. split.
  - unfold rstrip. rewrite <- reverse_app, <- Hs. by rewrite reverse_involutive.
  - intros c. unfold rstrip. rewrite last_reverse. apply Hh.
Qed.

Lemma strip_trimmed s : trimmed (strip s).
Proof.
  unfold strip.
  destruct (lstrip_split s) as (l & Hl & _ & Hh).
  destruct (rstrip_split (lstrip s)) as (r & Hr & Hs & Ht).
  split; [|done]. intros c Hc.
  destruct (rstrip (lstrip s)) as [|c' x] eqn:Hx; [done|].
  injection Hc as ->. apply Hh. by rewrite Hs.
Qed.

Lemma strip_of_trimmed s : trimmed s → strip s = s.
Proof. intros [Hh Ht]. unfold strip. by rewrite lstrip_head, rstrip_last. Qed.

Lemma strip_split s : ∃ l r, white l ∧ white r ∧ s = l ++ strip s ++ r.
Proof.
  destruct (lstrip_split s) as (l & Hl & Hs & _).
  destruct (rstrip_split (lstrip s)) as (r & Hr & Hs' & _).
  exists l, r. split; [done|]. split; [done|]. unfold strip.
  by rewrite <- Hs', <- Hs.
Qed.

Lemma strip_around l s r :
  white l → white r → trimmed s → s ≠ [] → strip (l ++ s ++ r) = s.
Proof.
  intros Hl Hr [Hh Ht] Hne. unfold strip.
  rewrite lstrip_white by done.
  rewrite lstrip_head.
  - rewrite rstrip_white by done. by apply rstrip_last.
  - destruct s; [done|]. apply Hh.
Qed.

Lemma strip_white s : white s → strip s = [].
Proof.
  intros Hs. unfold strip.
  rewrite <- (app_nil_r s), lstrip_white by done. done.
Qed.

Lemma strip_idempotent s : strip (strip s) = strip s.
Proof. apply strip_of_trimmed, strip_trimmed. Qed.

(** ** Replacing a character *)

Lemma replace_char_app old new s t :
  replace_char old new (s ++ t) = replace_char old new s ++ replace_char old new t.
Proof. unfold replace_char. apply bind_app. Qed.

Lemma replace_char_absent old new s : old ∉ s → replace_char old new s = s.
Proof.
  induction s as [|c s IH]; [done|]. intros Hn.
  apply not_elem_of_cons in Hn as [Hc Hs].
  change (replace_char old new (c :: s))
    with ((if (c =? old)%N then new else [c]) ++ replace_char old new s).
  rewrite (IH Hs). destruct (N.eqb_spec c old); [done|]. done.
Qed.

Lemma replace_char_white new s :
  white s → replace_char 8221 new s = s.
Proof.
  intros Hs. apply replace_char_absent. intros Hin.
  unfold white in Hs. rewrite Forall_forall in Hs. by apply Hs in Hin.
Qed.

Lemma replace_char_trimmed s :
  trimmed s → trimmed (replace_char 8221 (lit "in") s).
Proof.
  intros [Hh Ht]. split; intros c.
  - destruct s as [|d s]; [done|].
    change (replace_char 8221 (lit "in") (d :: s))
      with ((if (d =? 8221)%N then lit "in" else [d])
            ++ replace_char 8221 (lit "in") s).
    destruct (d =? 8221)%N; simpl; intros [= <-]; [done|by apply Hh].
  - destruct (last s) as [d|] eqn:Hd.
    + apply last_Some in Hd as [s' ->]. rewrite replace_char_app.
      change (replace_char 8221 (lit "in") [d])
        with ((if (d =? 8221)%N then lit "in" else [d]) ++ []).
      rewrite app_nil_r.
      destruct (d =? 8221)%N.
      * rewrite (last_app _ (lit "in")). simpl. by intros [= <-].
      * rewrite last_snoc. intros [= <-]. by apply Ht.
    + apply last_None in Hd as ->. done.
Qed.

Lemma replace_char_nil_inv s :
  replace_char 8221 (lit "in") s = [] → s = [].
Proof.
  destruct s as [|d s]; [done|].
  change (replace_char 8221 (lit "in") (d :: s))
    with ((if (d =? 8221)%N then lit "in" else [d])
          ++ replace_char 8221 (lit "in") s).
  by destruct (d =? 8221)%N.
Qed.

(** ** Collapsing runs of white characters *)

Lemma sub_ws_runs_white s : ∀ st,
  ws_state_ok st → white s → white (sub_ws_runs st s).
Proof.
  induction s as [|c s IH]; intros st Hst Hs.
  - destruct st; simpl; repeat constructor. done.
  - apply Forall_cons in Hs as [Hc Hs]. simpl. rewrite Hc.
    destruct st; apply IH; done.
Qed.

Lemma sub_ws_runs_white_then l c s : ∀ st,
  ws_state_ok st → white l → isspace c = false →
  ∃ e, white e ∧ sub_ws_runs st (l ++ c :: s) = e ++ c :: sub_ws_runs Scan s.
Proof.
  induction l as [|d l IH]; intros st Hst Hl Hc.
  - simpl. rewrite Hc. destruct st as [|d|].
    + exists []. by split; [constructor|].
    + exists [d]. split; [by repeat constructor|done].
    + exists [32%N]. split; [by repeat constructor|done].
  - apply Forall_cons in Hl as [Hd Hl]. simpl. rewrite Hd.
    destruct st; apply IH; done.
Qed.

Lemma sub_ws_runs_snoc_app s c t : ∀ st,
  isspace c = false →
  sub_ws_runs st ((s ++ [c]) ++ t) = sub_ws_runs st (s ++ [c]) ++ sub_ws_runs Scan t.
Proof.
  induction s as [|d s IH]; intros st Hc.
  - simpl. rewrite Hc. by destruct st.
  - simpl. destruct (isspace d), st; rewrite ?IH by done; done.
Qed.

Lemma sub_ws_runs_last s c : ∀ st,
  isspace c = false → last (sub_ws_runs st (s ++ [c])) = Some c.
Proof.
  induction s as [|d s IH]; intros st Hc.
  - simpl. rewrite Hc. by destruct st.
  - simpl. destruct (isspace d), st; rewrite ?last_cons, ?IH by done; done.
Qed.

Lemma sub_ws_runs_trimmed s :
  trimmed s → trimmed (sub_ws_runs Scan s) ∧ (s ≠ [] → sub_ws_runs Scan s ≠ []).
Proof.
  intros [Hh Ht]. destruct s as [|c s]; [done|].
  assert (isspace c = false) as Hc by (by apply Hh).
  split; [split|].
  - simpl. rewrite Hc. simpl. by intros ? [= <-].
  - destruct (last (c :: s)) as [d|] eqn:Hd; [|by apply last_None in Hd].
    pose proof (Ht d eq_refl) as Hdn.
    apply last_Some in Hd as [s' ->]. rewrite sub_ws_runs_last by done.
    by intros ? [= <-].
  - simpl. by rewrite Hc.
Qed.

(** Stripping after the collapse sees only the stripped string. *)
Lemma strip_sub_ws_runs l s r :
  white l → white r → trimmed s →
  strip (sub_ws_runs Scan (l ++ s ++ r)) = sub_ws_runs Scan s.
Proof.
  intros Hl Hr Hs. destruct s as [|c s].
  - simpl. apply strip_white, sub_ws_runs_white; [done|].
    by apply Forall_app.
  - destruct (sub_ws_runs_trimmed _ Hs) as [Htr Hne].
    pose proof Hs as [Hh Ht].
    assert (isspace c = false) as Hc by (by apply Hh).
    destruct (sub_ws_runs_white_then l c (s ++ r) Scan I Hl Hc) as (e & He & Hrun).
    rewrite <- app_comm_cons, Hrun. clear Hrun.
    destruct (last (c :: s)) as [d|] eqn:Hd; [|by apply last_None in Hd].
    pose proof (Ht d eq_refl) as Hdn.
    apply last_Some in Hd as [s' Hs'].
    assert (c :: sub_ws_runs Scan (s ++ r)
            = sub_ws_runs Scan (c :: s) ++ sub_ws_runs Scan r) as ->.
    { rewrite Hs', <- (sub_ws_runs_snoc_app s' d r Scan Hdn), <- Hs'.
      simpl. by rewrite Hc. }
    apply strip_around; [done| |done|by apply Hne].
    by apply sub_ws_runs_white.
Qed.

Section StringComparators.

Variable str_lower : pystr → pystr.

Lemma close_key_strip s :
  close_key str_lower s = close_key str_lower (strip s).
Proof.
  unfold close_key. f_equal.
  destruct (strip_split s) as (l & r & Hl & Hr & Hs).
  pose proof (strip_trimmed s) as Ht.
  rewrite Hs at 1.
  rewrite !replace_char_app, (replace_char_white _ l), (replace_char_white _ r) by done.
  rewrite strip_sub_ws_runs by (done || by apply replace_char_trimmed).
  symmetry. apply strip_of_trimmed.
  by apply sub_ws_runs_trimmed, replace_char_trimmed.
Qed.

End StringComparators.

(** ** Numbers: conversion and rounding keep the sign *)

Lemma float_of_int_raise z e : float_of_int z = Raise e → e = OverflowError.
Proof.
  unfold float_of_int. destruct (binary_normalize _ _ _ _ _); congruence.
Qed.

Lemma shr_1_nonneg mrs : (0 ≤ shr_m mrs)%Z → (0 ≤ shr_m (shr_1 mrs))%Z.
Proof. destruct mrs as [[|[p|p|]|p] r s]; simpl; lia. Qed.

Lemma iter_shr_1_nonneg n : ∀ mrs,
  (0 ≤ shr_m mrs)%Z → (0 ≤ shr_m (SpecFloat.iter_pos shr_1 n mrs))%Z.
Proof.
  induction n as [n IH|n IH|]; intros mrs Hm; simpl.
  - by apply IH, IH, shr_1_nonneg.
  - by apply IH, IH.
  - by apply shr_1_nonneg.
Qed.

Lemma shr_fexp_nonneg m e l :
  (0 ≤ m)%Z → (0 ≤ shr_m (shr_fexp prec emax m e l).1)%Z.
Proof.
  intros Hm. unfold shr_fexp, shr.
  assert (shr_m (shr_record_of_loc m l) = m) as Hrec
    by (by destruct l as [|[]]).
  destruct (_ - e)%Z; simpl; rewrite ?Hrec; try done.
  apply iter_shr_1_nonneg. by rewrite Hrec.
Qed.

Lemma round_nearest_even_nonneg m l :
  (0 ≤ m)%Z → (0 ≤ round_nearest_even m l)%Z.
Proof.
  intros Hm. destruct l as [|[]]; simpl; try done.
  - destruct (Z.even m); lia.
  - lia.
Qed.

Lemma binary_round_aux_nonneg m e l :
  (0 ≤ m)%Z → sf_nonneg (binary_round_aux prec emax false m e l) = true.
Proof.
  intros Hm. unfold binary_round_aux.
  pose proof (shr_fexp_nonneg m e l Hm) as H1.
  destruct (shr_fexp prec emax m e l) as [mrs' e']. simpl in H1.
  pose proof (shr_fexp_nonneg _ e' loc_Exact
                (round_nearest_even_nonneg _ (loc_of_shr_record mrs') H1)) as H2.
  destruct (shr_fexp prec emax _ e' loc_Exact) as [mrs'' e'']. simpl in H2.
  destruct (shr_m mrs''); [done| |lia]. by destruct (_ <=? _)%Z.
Qed.

Lemma binary_round_nonneg m e :
  sf_nonneg (binary_round prec emax false m e) = true.
Proof.
  unfold binary_round. destruct (shl_align _ _ _) as [mz ez].
  by apply binary_round_aux_nonneg.
Qed.

Lemma binary_normalize_nonneg z :
  (0 ≤ z)%Z → sf_nonneg (binary_normalize prec emax z 0 false) = true.
Proof.
  destruct z as [|p|p]; [done| |lia]. intros _. apply binary_round_nonneg.
Qed.

Lemma SFldexp_nonneg x e :
  sf_nonneg x = true → sf_nonneg (SFldexp prec emax x e) = true.
Proof.
  destruct x as [s|s| |[] m ex]; simpl; try done. intros _.
  apply binary_round_nonneg.
Qed.

(** The float of a positive mantissa and an exponent, as [SF2Prim]
    builds it. *)
Lemma ldexp_of_pos_nonneg m e :
  sf_nonneg (Prim2SF (Z.ldexp (of_uint63 (Uint63.of_Z (Z.pos m))) e)) = true.
Proof.
  unfold Z.ldexp. rewrite ldshiftexp_spec.
  apply SFldexp_nonneg. rewrite of_uint63_spec.
  apply binary_normalize_nonneg, Uint63.to_Z_bounded.
Qed.

Lemma SF2Prim_nonneg x :
  sf_nonneg x = true → sf_nonneg (Prim2SF (SF2Prim x)) = true.
Proof.
  destruct x as [[]|[]| |[] m e]; try done. intros _.
  apply ldexp_of_pos_nonneg.
Qed.

Lemma float_of_int_nonneg z g :
  (0 ≤ z)%Z → float_of_int z = Ok g → sf_nonneg (Prim2SF g) = true.
Proof.
  intros Hz. unfold float_of_int.
  pose proof (binary_normalize_nonneg z Hz) as Hn.
  destruct (binary_normalize prec emax z 0 false) as [s|s| |s m e] eqn:Hb;
    try done; intros Hg;
    (assert (g = SF2Prim (binary_normalize prec emax z 0 false)) as ->
       by (rewrite Hb; congruence));
    apply SF2Prim_nonneg; by rewrite Hb.
Qed.

Lemma SFopp_not_nan x : sf_nonneg x = true → SFopp x ≠ S754_nan.
Proof. by destruct x. Qed.

Lemma Prim2SF_is_nan g : Prim2SF g ≠ S754_nan → is_nan g = false.
Proof. unfold Prim2SF. by destruct (is_nan g). Qed.

(** The float of an integer is a number. *)
Lemma float_of_int_not_nan z g : float_of_int z = Ok g → is_nan g = false.
Proof.
  intros Hg. apply Prim2SF_is_nan.
  destruct (Z.le_gt_cases 0 z) as [Hz|Hz].
  - pose proof (float_of_int_nonneg z g Hz Hg) as Hn.
    by destruct (Prim2SF g).
  - unfold float_of_int in Hg. destruct z as [|p|p]; try lia.
    cbn [binary_normalize] in Hg.
    pose proof (binary_round_nonneg p 0) as Hn.
    unfold binary_round in *. destruct (shl_align _ _ _) as [mz ez].
    unfold binary_round_aux in *.
    destruct (shr_fexp prec emax (Z.pos mz) ez loc_Exact) as [mrs' e'].
    destruct (shr_fexp prec emax _ e' loc_Exact) as [mrs'' e''].
    destruct (shr_m mrs'') as [|m|m]; [| |done].
    + injection Hg as <-. by vm_compute.
    + destruct (e'' <=? emax - prec)%Z; [|done]. injection Hg as <-.
      unfold SF2Prim. rewrite opp_spec. apply SFopp_not_nan.
      apply ldexp_of_pos_nonneg.
Qed.

Lemma SF64mul_finite_nonneg m e y :
  sf_nonneg y = true →
  sf_nonneg (SF64mul (S754_finite false m e) y) = true.
Proof.
  destruct y as [sy|[]| |[] my ey]; simpl; try done; intros _.
  by apply (binary_round_aux_nonneg (Z.pos (m * my))).
Qed.

Lemma SFleb_zero_nonneg s x :
  sf_nonneg x = true → SFleb (S754_zero s) x = true.
Proof. by destruct x as [sx|[]| |[] mx ex]. Qed.

Lemma cmp_int_float_zero_nonneg t :
  sf_nonneg (Prim2SF t) = true →
  cmp_int_float 0 t = Some Lt ∨ cmp_int_float 0 t = Some Eq.
Proof.
  unfold cmp_int_float. destruct (Prim2SF t) as [s|[]| |[] m e]; try done;
    intros _; [by right|by left|]. left. f_equal. cbn [cond_Zopp].
  destruct (0 <=? e)%Z eqn:He; [|done].
  apply Z.compare_lt_iff. apply Z.leb_le in He.
  pose proof (Z.pow_pos_nonneg 2 e). lia.
Qed.

(** A plain float is a zero or a positive finite number. *)
Lemma plain_float f :
  plain_value (VFloat f) = true →
  sf_nonneg (Prim2SF f) = true ∧
  SF64sub (Prim2SF f) (Prim2SF f) = S754_zero false.
Proof.
  simpl. intros [Hle Hlt]%andb_prop.
  rewrite leb_spec in Hle. rewrite ltb_spec in Hlt.
  change (Prim2SF 0) with (S754_zero false) in Hle.
  change (Prim2SF infinity) with (S754_infinity false) in Hlt.
  destruct (Prim2SF f) as [s|[]| |[] m e]; try done.
  - by destruct s.
  - split; [done|]. simpl. by rewrite Z.sub_diag.
Qed.

(** ** The emptiness test and the comparators on numbers *)

Lemma is_empty_raise v e : is_empty v = Raise e → e = OverflowError.
Proof.
  destruct v as [s|z|f]; unfold is_empty; simpl.
  - by case_bool_decide.
  - destruct (float_of_int z) as [g|e'] eqn:Hz; simpl.
    + by destruct (is_nan g).
    + intros [= <-]. by apply (float_of_int_raise z).
  - by destruct (is_nan f).
Qed.

Lemma is_empty_finite v b : is_empty v = Ok b → finite_int v = true.
Proof.
  destruct v as [s|z|f]; unfold is_empty, finite_int; simpl; try done.
  by destruct (float_of_int z).
Qed.

(** X1: on an integer [is_empty] answers whether it is zero, and raises
    [OverflowError] when the integer is too large to convert to a float,
    which [math.isnan] does first. *)
Theorem is_empty_int (z : Z) :
  is_empty (VInt z) =
  if finite_int (VInt z) then Ok (z =? 0)%Z else Raise OverflowError.
Proof.
  unfold is_empty, finite_int. simpl.
  destruct (float_of_int z) as [g|e] eqn:Hg; simpl.
  - by rewrite (float_of_int_not_nan z g Hg).
  - by rewrite (float_of_int_raise z e Hg).
Qed.

Lemma within_raise tol a b e :
  is_str a = false → is_str b = false →
  within tol a b = Raise e →
  e = OverflowError ∧ (finite_int a = false ∨ finite_int b = false).
Proof.
  intros Ha Hb Hw.
  destruct (finite_int a) eqn:Fa, (finite_int b) eqn:Fb;
    try (split; [|by auto]).
  - destruct (within_ok tol a b Ha Hb Fa Fb) as [r Hr].
    unfold within in Hw. congruence.
  - destruct a as [|x|f], b as [|y|g]; try done; unfold within in Hw;
      simpl in Hw, Fa, Fb.
    + destruct (float_of_int y) as [|e'] eqn:Hy; [done|].
      destruct (x <? y)%Z; simpl in Hw; rewrite ?Hy in Hw; simpl in Hw.
      * injection Hw as <-. by eapply float_of_int_raise.
      * destruct (float_of_int x) eqn:Hx; simpl in Hw; [done|].
        injection Hw as <-. by eapply float_of_int_raise.
    + destruct (float_of_int y) as [|e'] eqn:Hy; [done|]. simpl in Hw.
      injection Hw as <-. by eapply float_of_int_raise.
  - destruct a as [|x|f], b as [|y|g]; try done; unfold within in Hw;
      simpl in Hw, Fa, Fb.
    + destruct (float_of_int x) as [|e'] eqn:Hx; [done|].
      destruct (x <? y)%Z; simpl in Hw; rewrite ?Hx in Hw; simpl in Hw.
      * destruct (float_of_int y) eqn:Hy; simpl in Hw; [done|].
        injection Hw as <-. by eapply float_of_int_raise.
      * injection Hw as <-. by eapply float_of_int_raise.
    + destruct (float_of_int x) as [|e'] eqn:Hx; [done|]. simpl in Hw.
      injection Hw as <-. by eapply float_of_int_raise.
  - destruct a as [|x|f], b as [|y|g]; try done; unfold within in Hw;
      simpl in Hw, Fa, Fb.
    destruct (float_of_int x) as [|e'] eqn:Hx; [done|].
    destruct (float_of_int y) as [|e''] eqn:Hy; [done|].
    destruct (x <? y)%Z; simpl in Hw; rewrite ?Hx, ?Hy in Hw; simpl in Hw;
      injection Hw as <-; by eapply float_of_int_raise.
Qed.

Lemma is_nan_Prim2SF f : is_nan f = true → Prim2SF f = S754_nan.
Proof. intros H. unfold Prim2SF. by rewrite H. Qed.

Lemma within_nan tol a b :
  is_str a = false → is_str b = false →
  finite_int a = true → finite_int b = true →
  is_nan_value a || is_nan_value b = true →
  within tol a b = Ok false.
Proof.
  intros Ha Hb Fa Fb Hn. unfold within.
  destruct a as [s|x|f], b as [t|y|g]; try done; simpl in Hn, Fa, Fb.
  - destruct (float_of_int x) as [fx|] eqn:Hx; [|done].
    apply is_nan_Prim2SF in Hn.
    cbn [py_sub bind py_abs py_max py_lt]. rewrite Hx. cbn [bind py_abs].
    unfold cmp_int_float. rewrite Hn. cbn [bind py_mul]. rewrite Hx.
    cbn [bind py_le]. f_equal. apply float_test_nan.
    by rewrite Hn, SFcompare_nan_r.
  - destruct (float_of_int y) as [fy|] eqn:Hy; [|done].
    rewrite orb_false_r in Hn. apply is_nan_Prim2SF in Hn.
    cbn [py_sub bind py_abs py_max py_lt]. rewrite Hy. cbn [bind py_abs].
    unfold cmp_int_float. rewrite Hn. cbn [bind py_mul py_le]. f_equal.
    apply float_test_nan. by rewrite Hn.
  - cbn [py_sub bind py_abs py_max py_lt].
    assert (SFcompare (Prim2SF f) (Prim2SF g) = None) as Hc.
    { apply orb_prop in Hn as [Hn|Hn]; apply is_nan_Prim2SF in Hn;
        rewrite Hn; [done|apply SFcompare_nan_r]. }
    destruct (f <? g)%float; cbn [bind py_mul py_le]; f_equal;
      by apply float_test_nan.
Qed.

Section NumericComparators.

Variable str_lower : pystr → pystr.

(** X2: the comparators raise nothing but [OverflowError], and that only
    on two numbers one of which is an integer too large to convert to a
    float; on strings and on floats they always answer. *)
Theorem comparators_raise_overflow (a b : value) (e : exn) :
  are_equal a b = Raise e ∨ are_close_enough str_lower a b = Raise e →
  e = OverflowError ∧ is_str a = false ∧ is_str b = false ∧
  (finite_int a = false ∨ finite_int b = false).
Proof.
  intros H.
  destruct (is_str a) eqn:Ha; [by destruct a, b, H|].
  destruct (is_str b) eqn:Hb; [by destruct a, b, H|].
  rewrite are_equal_within, are_close_enough_within in H by done.
  destruct H as [H|H]; apply within_raise in H as [-> ?]; done.
Qed.

(** A number from zero on is within any positive tolerance of itself. *)
Lemma within_refl tol v :
  (0 <? tol)%float = true → (tol <? infinity)%float = true →
  is_str v = false → plain_value v = true → within tol v v = Ok true.
Proof.
  intros Hpos Hfin Hs Hv.
  assert (∃ m e, Prim2SF tol = S754_finite false m e) as (mt & et & Ht).
  { rewrite ltb_spec in Hfin, Hpos.
    change (Prim2SF 0) with (S754_zero false) in Hpos.
    change (Prim2SF infinity) with (S754_infinity false) in Hfin.
    destruct (Prim2SF tol) as [s|[]| |[] m e]; try done. eauto. }
  destruct v as [s|z|f]; [done|..]; unfold within.
  - simpl in Hv. apply andb_prop in Hv as [Hz Hf]. apply Z.leb_le in Hz.
    cbn [py_sub bind py_abs py_max py_lt py_mul]. rewrite Z.sub_diag, Z.ltb_irrefl.
    destruct (float_of_int z) as [g|] eqn:Hg; [|done]. cbn [bind py_le].
    pose proof (float_of_int_nonneg z g Hz Hg) as Hn.
    assert (sf_nonneg (Prim2SF (tol * g)) = true) as Hm.
    { rewrite mul_spec, Ht. by apply SF64mul_finite_nonneg. }
    change (Z.abs 0) with 0%Z.
    by destruct (cmp_int_float_zero_nonneg _ Hm) as [-> | ->].
  - destruct (plain_float f Hv) as [Hn Hsub].
    cbn [py_sub bind py_abs py_max py_lt py_mul py_le].
    assert ((if (f <? f)%float then VFloat f else VFloat f) = VFloat f) as ->
      by by destruct (f <? f)%float.
    cbn [bind py_mul py_le]. f_equal.
    rewrite leb_spec, abs_spec, sub_spec, Hsub, mul_spec, Ht. simpl SFabs.
    by apply SFleb_zero_nonneg, SF64mul_finite_nonneg.
Qed.

Lemma are_equal_plain v : plain_value v = true → are_equal v v = Ok true.
Proof.
  intros Hv. destruct (is_str v) eqn:Hs.
  - destruct v; [|done..]. simpl. by rewrite bool_decide_eq_true_2.
  - rewrite are_equal_within by done. by apply within_refl.
Qed.

(** X3: a string, and a number from zero on that is finite, is equal to
    itself under both comparators.  The bound matters: below zero the
    tolerance, taken from [max(a, b)], is negative. *)
Theorem comparators_reflexive (v : value) :
  plain_value v = true →
  are_equal v v = Ok true ∧ are_close_enough str_lower v v = Ok true.
Proof.
  intros Hv. destruct (is_str v) eqn:Hs.
  - destruct v; [|done..]. simpl. by rewrite !bool_decide_eq_true_2.
  - rewrite are_equal_within, are_close_enough_within by done.
    split; by apply within_refl.
Qed.

(** X20: not-a-number is equal to nothing, itself included: when an
    operand is the float not-a-number, and no integer operand is too large
    to convert, both comparators answer [False]. *)
Theorem comparators_nan (a b : value) :
  finite_int a = true → finite_int b = true →
  is_nan_value a || is_nan_value b = true →
  are_equal a b = Ok false ∧ are_close_enough str_lower a b = Ok false.
Proof.
  intros Fa Fb Hn.
  destruct (is_str a) eqn:Ha; [destruct a, b; try done|].
  destruct (is_str b) eqn:Hb; [destruct a, b; try done|].
  rewrite are_equal_within, are_close_enough_within by done.
  split; by apply within_nan.
Qed.

End NumericComparators.

Lemma comparators_raise_overflow_witness :
  OverflowError = OverflowError ∧
  is_str (VInt (2 ^ 1024)) = false ∧ is_str (VInt 0) = false ∧
  (finite_int (VInt (2 ^ 1024)) = false ∨ finite_int (VInt 0) = false).
Proof.
  apply (comparators_raise_overflow ascii_lower (VInt (2 ^ 1024)) (VInt 0)).
  left. vm_compute. reflexivity.
Defined.

Lemma comparators_reflexive_witness :
  are_equal (VFloat 1.5) (VFloat 1.5) = Ok true ∧
  are_close_enough ascii_lower (VFloat 1.5) (VFloat 1.5) = Ok true.
Proof.
  apply (comparators_reflexive ascii_lower (VFloat 1.5)).
  vm_compute. reflexivity.
Defined.

Lemma comparators_nan_witness :
  are_equal (VFloat nan) (VFloat 1.5) = Ok false ∧
  are_close_enough ascii_lower (VFloat nan) (VFloat 1.5) = Ok false.
Proof.
  apply (comparators_nan ascii_lower (VFloat nan) (VFloat 1.5));
    vm_compute; reflexivity.
Defined.

(** ** The strict test and the tolerant test *)

Section Rounding.

Local Open Scope Z_scope.

(** ** Shifting and rounding, by value *)

Lemma digits2_pos_bounds m :
  2 ^ (Z.pos (digits2_pos m) - 1) ≤ Z.pos m < 2 ^ Z.pos (digits2_pos m).
Proof.
  induction m as [m IH|m IH|]; simpl digits2_pos.
  - rewrite Pos2Z.inj_succ.
    replace (Z.succ (Z.pos (digits2_pos m)) - 1)
      with (Z.succ (Z.pos (digits2_pos m) - 1)) by lia.
    rewrite !Z.pow_succ_r by lia. lia.
  - rewrite Pos2Z.inj_succ.
    replace (Z.succ (Z.pos (digits2_pos m)) - 1)
      with (Z.succ (Z.pos (digits2_pos m) - 1)) by lia.
    rewrite !Z.pow_succ_r by lia. lia.
  - simpl. lia.
Qed.

Lemma shr_1_spec mrs :
  0 ≤ shr_m mrs →
  shr_m (shr_1 mrs) = shr_m mrs / 2 ∧ shr_r (shr_1 mrs) = Z.odd (shr_m mrs).
Proof.
  destruct mrs as [[|[p|p|]|p] r s]; simpl; intros H; try lia; split;
    try reflexivity.
  - rewrite Pos2Z.inj_xI. apply Z.div_unique with 1; lia.
  - rewrite Pos2Z.inj_xO. apply Z.div_unique with 0; lia.
Qed.

Lemma iter_shr_1_spec n mrs :
  0 ≤ shr_m mrs →
  shr_m (SpecFloat.iter_pos shr_1 n mrs) = shr_m mrs / 2 ^ Z.pos n ∧
  shr_r (SpecFloat.iter_pos shr_1 n mrs)
  = Z.odd (shr_m mrs / 2 ^ (Z.pos n - 1)).
Proof.
  intros Hm. rewrite iter_pos_iter.
  induction n as [|n IH] using Pos.peano_ind.
  - simpl Pos.iter. destruct (shr_1_spec mrs Hm) as [-> ->].
    split; [done|]. by rewrite Z.div_1_r.
  - rewrite Pos.iter_succ. destruct IH as [IHm IHr].
    assert (0 ≤ shr_m (Pos.iter shr_1 mrs n)) as Hn.
    { rewrite IHm. apply Z.div_pos; lia. }
    destruct (shr_1_spec _ Hn) as [-> ->]. rewrite IHm.
    rewrite Pos2Z.inj_succ.
    replace (Z.succ (Z.pos n) - 1) with (Z.pos n) by lia.
    split; [|done]. rewrite Z.pow_succ_r by lia.
    rewrite Z.div_div by lia. f_equal. lia.
Qed.

(** The first shift of [binary_round_aux], from an exact location. *)
Lemma shr_fexp_spec m e :
  0 ≤ m →
  (fexp prec emax (Zdigits2 m + e) - e ≤ 0 →
   shr_m (shr_fexp prec emax m e loc_Exact).1 = m ∧
   shr_r (shr_fexp prec emax m e loc_Exact).1 = false ∧
   (shr_fexp prec emax m e loc_Exact).2 = e) ∧
  (0 < fexp prec emax (Zdigits2 m + e) - e →
   shr_m (shr_fexp prec emax m e loc_Exact).1
   = m / 2 ^ (fexp prec emax (Zdigits2 m + e) - e) ∧
   shr_r (shr_fexp prec emax m e loc_Exact).1
   = Z.odd (m / 2 ^ (fexp prec emax (Zdigits2 m + e) - e - 1)) ∧
   (shr_fexp prec emax m e loc_Exact).2 = fexp prec emax (Zdigits2 m + e)).
Proof.
  intros Hm. unfold shr_fexp, shr.
  destruct (fexp prec emax (Zdigits2 m + e) - e) as [|p|p] eqn:Hn;
    split; try lia; intros _; cbn [fst snd shr_record_of_loc shr_m shr_r].
  - done.
  - destruct (iter_shr_1_spec p
                {| shr_m := m; shr_r := false; shr_s := false |} Hm)
      as [-> ->]. split_and!; [done..|lia].
  - done.
Qed.

Lemma round_nearest_even_spec mrs :
  round_nearest_even (shr_m mrs) (loc_of_shr_record mrs) = shr_m mrs ∨
  round_nearest_even (shr_m mrs) (loc_of_shr_record mrs) = shr_m mrs + 1 ∧
  shr_r mrs = true.
Proof.
  destruct mrs as [m [] []]; simpl; auto.
  destruct (Z.even m); auto.
Qed.

Lemma fexp_eq x : fexp prec emax x = Z.max (x - 53) (-1074).
Proof. reflexivity. Qed.

Lemma odd_half q : Z.odd q = true → q = 2 * (q / 2) + 1.
Proof.
  intros Hq. rewrite (Z.div_mod q 2) at 1 by lia.
  rewrite Zmod_odd, Hq. lia.
Qed.

(** What the first shift and the rounding of [binary_round_aux] give for a
    mantissa [m]: the exponent goes up by [n], the mantissa is the quotient
    by [2 ^ n] or one more, and one more only from the half on. *)
Lemma first_round_spec (m : positive) (e : Z) :
  let n := Z.max 0 (fexp prec emax (Z.pos (digits2_pos m) + e) - e) in
  let r := shr_fexp prec emax (Z.pos m) e loc_Exact in
  let m'' := round_nearest_even (shr_m r.1) (loc_of_shr_record r.1) in
  r.2 = e + n ∧
  Z.pos m / 2 ^ n ≤ m'' ≤ Z.pos m / 2 ^ n + 1 ∧
  m'' * 2 ^ n ≤ 2 * Z.pos m ∧
  (2 * Z.pos m < 2 ^ n → m'' = 0).
Proof.
  intros n r m''.
  destruct (shr_fexp_spec (Z.pos m) e) as [Hle Hgt]; [lia|].
  change (Zdigits2 (Z.pos m)) with (Z.pos (digits2_pos m)) in *.
  fold r in Hle, Hgt.
  destruct (round_nearest_even_spec r.1) as [Hr|[Hr Hbit]]; fold m'' in Hr.
  - destruct (Z.le_gt_cases (fexp prec emax (Z.pos (digits2_pos m) + e) - e) 0)
      as [H0|H0].
    + destruct (Hle H0) as (Hm & _ & He).
      assert (n = 0) as Hn by lia. rewrite Hn in *.
      rewrite Z.pow_0_r, Z.div_1_r, Z.add_0_r. lia.
    + destruct (Hgt H0) as (Hm & _ & He).
      assert (n = fexp prec emax (Z.pos (digits2_pos m) + e) - e) as Hn by lia.
      rewrite <- Hn in *.
      assert (0 < 2 ^ n) as Hp by (apply Z.pow_pos_nonneg; lia).
      pose proof (Z.mul_div_le (Z.pos m) (2 ^ n) Hp).
      split; [lia|]. split; [lia|]. split; [rewrite Hr, Hm; nia|].
      intros Hsmall. rewrite Hr, Hm. apply Z.div_small. lia.
  - destruct (Z.le_gt_cases (fexp prec emax (Z.pos (digits2_pos m) + e) - e) 0)
      as [H0|H0].
    + destruct (Hle H0) as (_ & Hb & _). congruence.
    + destruct (Hgt H0) as (Hm & Hb & He).
      assert (n = fexp prec emax (Z.pos (digits2_pos m) + e) - e) as Hn by lia.
      rewrite <- Hn in *.
      assert (0 < 2 ^ (n - 1)) as Hp by (apply Z.pow_pos_nonneg; lia).
      assert (2 ^ n = 2 * 2 ^ (n - 1)) as Hpow.
      { replace n with (Z.succ (n - 1)) at 1 by lia.
        rewrite Z.pow_succ_r; lia. }
      rewrite Hbit in Hb. symmetry in Hb. apply odd_half in Hb.
      assert (Z.pos m / 2 ^ n = Z.pos m / 2 ^ (n - 1) / 2) as Hdiv.
      { rewrite Hpow, Z.mul_comm, Z.div_div; lia. }
      pose proof (Z.mul_div_le (Z.pos m) (2 ^ (n - 1)) Hp) as Hq.
      assert (0 ≤ Z.pos m / 2 ^ n) as Hnn by (apply Z.div_pos; lia).
      split; [lia|]. split; [lia|]. split.
      * rewrite Hr, Hm. rewrite Hdiv in *. rewrite Hpow.
        generalize dependent (Z.pos m / 2 ^ (n - 1)).
        generalize dependent (2 ^ (n - 1)). clear. intros P _ _ q. nia.
      * intros Hsmall. exfalso.
        assert (Z.pos m / 2 ^ (n - 1) = 0) as Hz
          by (apply Z.div_small; lia).
        rewrite Hz in Hb. simpl in Hb. lia.
Qed.

(** The second shift, which renormalises the rounded mantissa. *)
Lemma second_shift_spec (m'' e' : Z) :
  0 ≤ m'' →
  let r := shr_fexp prec emax m'' e' loc_Exact in
  ∃ n2, 0 ≤ n2 ∧ n2 = Z.max 0 (fexp prec emax (Zdigits2 m'' + e') - e') ∧
    shr_m r.1 = m'' / 2 ^ n2 ∧ r.2 = e' + n2.
Proof.
  intros Hm r.
  destruct (shr_fexp_spec m'' e' Hm) as [Hle Hgt]. fold r in Hle, Hgt.
  exists (Z.max 0 (fexp prec emax (Zdigits2 m'' + e') - e')).
  split; [lia|]. split; [done|].
  destruct (Z.le_gt_cases (fexp prec emax (Zdigits2 m'' + e') - e') 0)
    as [H0|H0].
  - destruct (Hle H0) as (-> & _ & ->).
    rewrite Z.max_l by lia. rewrite Z.pow_0_r, Z.div_1_r. lia.
  - destruct (Hgt H0) as (-> & _ & ->).
    rewrite Z.max_r by lia. split; [done|lia].
Qed.

Lemma Zdigits2_le m k : 0 ≤ k → 0 ≤ m < 2 ^ k → Zdigits2 m ≤ k.
Proof.
  intros Hk [Hm Hlt]. destruct m as [|p|p]; simpl; [lia| |lia].
  destruct (digits2_pos_bounds p) as [Hlo _].
  destruct (Z.le_gt_cases (Z.pos (digits2_pos p)) k) as [|Hgt]; [done|].
  exfalso. assert (2 ^ k ≤ 2 ^ (Z.pos (digits2_pos p) - 1))
    by (apply Z.pow_le_mono_r; lia). lia.
Qed.

(** The product of two positive mantissas, rounded: its sign, its exponent
    and its value within a factor of the product. *)
Lemma binary_round_aux_bounds (m : positive) (e : Z) :
  let n := Z.max 0 (fexp prec emax (Z.pos (digits2_pos m) + e) - e) in
  match binary_round_aux prec emax false (Z.pos m) e loc_Exact with
  | S754_zero s => s = false ∧ Z.pos m < 2 ^ n
  | S754_infinity s => s = false ∧ emax - prec < e + n + 1
  | S754_finite s mf ef =>
      s = false ∧ e + n ≤ ef ∧
      Z.pos mf * 2 ^ (ef - e) ≤ 2 * Z.pos m ∧
      (2 ^ n ≤ Z.pos m → Z.pos m < 4 * (Z.pos mf * 2 ^ (ef - e)))
  | S754_nan => False
  end ∧
  (2 * Z.pos m < 2 ^ n →
   binary_round_aux prec emax false (Z.pos m) e loc_Exact = S754_zero false).
Proof.
  intros n. unfold binary_round_aux.
  pose proof (first_round_spec m e) as H1. cbv zeta in H1. fold n in H1.
  destruct (shr_fexp prec emax (Z.pos m) e loc_Exact) as [mrs' e'].
  cbn [fst snd] in H1. destruct H1 as (He' & [Hlo Hhi] & Hup & Hzero).
  set (m'' := round_nearest_even (shr_m mrs') (loc_of_shr_record mrs')) in *.
  assert (0 < 2 ^ n) as Hp by (apply Z.pow_pos_nonneg; lia).
  assert (0 ≤ Z.pos m / 2 ^ n) as Hq by (apply Z.div_pos; lia).
  assert (0 ≤ m'') as Hm'' by lia.
  destruct (second_shift_spec m'' e' Hm'') as (n2 & Hn2 & Hn2eq & Hmf & He'').
  destruct (shr_fexp prec emax m'' e' loc_Exact) as [mrs2 e2].
  cbn [fst snd] in Hmf, He''.
  assert (0 < 2 ^ n2) as Hp2 by (apply Z.pow_pos_nonneg; lia).
  pose proof (Z.mul_div_le m'' (2 ^ n2) Hp2) as Hfloor.
  pose proof (Z.mul_succ_div_gt m'' (2 ^ n2) Hp2) as Hceil.
  pose proof (Z.mul_succ_div_gt (Z.pos m) (2 ^ n) Hp) as Hceil1.
  rewrite <- Hmf in Hfloor, Hceil.
  split.
  - destruct (shr_m mrs2) as [|mf|mf] eqn:Hs.
    + split; [done|].
      assert (m'' = 0) as Hz; [|rewrite Hz in Hlo; lia].
      destruct (Z.eq_dec m'' 0) as [|Hne]; [done|]. exfalso.
      destruct m'' as [|p|p] eqn:Hp''; [done| |lia].
      destruct (digits2_pos_bounds p) as [Hdl _].
      assert (n2 ≤ Z.pos (digits2_pos p) - 1) as Hn2'.
      { rewrite Hn2eq. simpl Zdigits2. rewrite fexp_eq.
        subst n. rewrite fexp_eq in He'. lia. }
      assert (2 ^ n2 ≤ 2 ^ (Z.pos (digits2_pos p) - 1))
        by (apply Z.pow_le_mono_r; lia).
      lia.
    + assert (Z.pos mf * 2 ^ (e2 - e) = Z.pos mf * 2 ^ n2 * 2 ^ n) as Hval.
      { replace (e2 - e) with (n2 + n) by lia.
        rewrite Z.pow_add_r by lia. lia. }
      destruct (e2 <=? emax - prec) eqn:Hov.
      * split; [done|]. split; [lia|]. rewrite Hval. split; [nia|].
        intros Hbig.
        assert (1 ≤ Z.pos m / 2 ^ n) as Hone.
        { apply Z.div_le_lower_bound; lia. }
        assert (Z.pos m < 2 * (2 ^ n * m'')) as Ha by nia.
        assert (m'' < 2 * (2 ^ n2 * Z.pos mf)) as Hb by nia.
        nia.
      * split; [done|]. apply Z.leb_gt in Hov.
        assert (n2 ≤ 1); [|lia].
        assert (Zdigits2 m'' ≤ prec + 1) as Hd.
        { apply Zdigits2_le; [done|]. split; [done|].
          assert (Z.pos m / 2 ^ n < 2 ^ prec); [|change (2 ^ (prec + 1)) with (2 * 2 ^ prec); lia].
          apply Z.div_lt_upper_bound; [done|].
          rewrite <- Z.pow_add_r by (done || lia).
          destruct (digits2_pos_bounds m) as [_ Hlt].
          eapply Z.lt_le_trans; [exact Hlt|].
          apply Z.pow_le_mono_r; [lia|]. subst n. rewrite fexp_eq.
          change prec with 53. lia. }
        rewrite Hn2eq, fexp_eq. subst n. rewrite fexp_eq in He'.
        change prec with 53 in Hd. lia.
    + exfalso. assert (0 ≤ m'' / 2 ^ n2) by (apply Z.div_pos; lia). lia.
  - intros Hsmall. rewrite (Hzero Hsmall) in Hmf.
    rewrite Z.div_0_l in Hmf by lia. by rewrite Hmf.
Qed.

(** ** The order of floats and the order of their values *)

Lemma SFleb_finite_pos m1 e1 m2 e2 :
  SFleb (S754_finite false m1 e1) (S754_finite false m2 e2) = true ↔
  e1 < e2 ∨ e1 = e2 ∧ Z.pos m1 ≤ Z.pos m2.
Proof.
  unfold SFleb, SFcompare.
  destruct (Z.compare_spec e1 e2) as [He|He|He]; [|split; [lia|done]|].
  - fold (Pos.compare m1 m2).
    destruct (Pos.compare_spec m1 m2) as [Hm|Hm|Hm]; split; try done; lia.
  - split; [done|lia].
Qed.

Lemma canonical_digits m e :
  canonical_mantissa prec emax m e = true →
  -1074 ≤ e ∧ Z.pos m < 2 ^ 53 ∧ (-1074 < e → 2 ^ 52 ≤ Z.pos m).
Proof.
  unfold canonical_mantissa. rewrite fexp_eq. intros Hc%Z.eqb_eq.
  destruct (digits2_pos_bounds m) as [Hlo Hhi].
  split; [lia|]. split.
  - eapply Z.lt_le_trans; [exact Hhi|]. apply Z.pow_le_mono_r; lia.
  - intros He. assert (Z.pos (digits2_pos m) = 53) as Hd by lia.
    by rewrite Hd in Hlo.
Qed.

Lemma pow2_split a b : 0 ≤ a → 0 ≤ b → 2 ^ (a + b) = 2 ^ a * 2 ^ b.
Proof. intros. apply Z.pow_add_r; lia. Qed.

(** Canonical positive floats are ordered as their values are. *)
Lemma SFleb_of_value m1 e1 m2 e2 E :
  canonical_mantissa prec emax m1 e1 = true →
  canonical_mantissa prec emax m2 e2 = true →
  E ≤ e1 → E ≤ e2 →
  SFleb (S754_finite false m1 e1) (S754_finite false m2 e2) = true ↔
  Z.pos m1 * 2 ^ (e1 - E) ≤ Z.pos m2 * 2 ^ (e2 - E).
Proof.
  intros (Hmin1 & Hhi1 & Hlo1)%canonical_digits
         (Hmin2 & Hhi2 & Hlo2)%canonical_digits H1 H2.
  rewrite SFleb_finite_pos.
  assert (0 < 2 ^ (e1 - E)) as Hp1 by (apply Z.pow_pos_nonneg; lia).
  assert (0 < 2 ^ (e2 - E)) as Hp2 by (apply Z.pow_pos_nonneg; lia).
  destruct (Z.lt_trichotomy e1 e2) as [Hlt|[Heq|Hgt]].
  - assert (2 ^ (e2 - E) = 2 ^ (e2 - e1 - 1) * 2 * 2 ^ (e1 - E)) as Hpow.
    { replace (e2 - E) with ((e2 - e1 - 1) + (1 + (e1 - E))) by lia.
      rewrite !pow2_split by lia. change (2 ^ 1) with 2. lia. }
    assert (0 < 2 ^ (e2 - e1 - 1)) by (apply Z.pow_pos_nonneg; lia).
    specialize (Hlo2 ltac:(lia)).
    split; [intros _|intros _; by left]. rewrite Hpow.
    change (2 ^ 53) with (2 * 2 ^ 52) in *. nia.
  - subst e2. split.
    + intros [?|[_ Hm]]; [lia|]. nia.
    + intros Hv. right. split; [done|]. nia.
  - assert (2 ^ (e1 - E) = 2 ^ (e1 - e2 - 1) * 2 * 2 ^ (e2 - E)) as Hpow.
    { replace (e1 - E) with ((e1 - e2 - 1) + (1 + (e2 - E))) by lia.
      rewrite !pow2_split by lia. change (2 ^ 1) with 2. lia. }
    assert (0 < 2 ^ (e1 - e2 - 1)) by (apply Z.pow_pos_nonneg; lia).
    specialize (Hlo1 ltac:(lia)).
    split; [intros [?|[? _]]; lia|]. rewrite Hpow.
    change (2 ^ 53) with (2 * 2 ^ 52) in *. intros Hv. exfalso. nia.
Qed.

Lemma SFleb_trans_nonneg d t1 t2 :
  sf_nonneg t1 = true → sf_nonneg t2 = true →
  SFleb d t1 = true → SFleb t1 t2 = true → SFleb d t2 = true.
Proof.
  destruct t1 as [s1|[]| |[] m1 e1]; try done;
    destruct t2 as [s2|[]| |[] m2 e2]; try done;
    destruct d as [sd|[]| |[] md ed]; try done; intros _ _.
  rewrite !SFleb_finite_pos. lia.
Qed.

(** ** The two tolerances *)

Lemma tol_equal_SF : Prim2SF tol_equal = S754_finite false 4611686018427388 (-61).
Proof. by vm_compute. Qed.

Lemma tol_close_SF : Prim2SF tol_close = S754_finite false 7205759403792794 (-57).
Proof. by vm_compute. Qed.

Lemma valid_finite s m e :
  valid_binary (S754_finite s m e) = true →
  canonical_mantissa prec emax m e = true ∧ e ≤ 971.
Proof.
  unfold valid_binary. simpl. unfold bounded.
  intros [Hc He]%andb_prop. split; [done|].
  apply Z.leb_le in He. exact He.
Qed.

(** The tolerance of the tolerant test is at least that of the strict one,
    for a number from zero on. *)
Lemma tol_mul_mono (x : float) :
  sf_nonneg (Prim2SF x) = true →
  SFleb (Prim2SF (tol_equal * x)) (Prim2SF (tol_close * x)) = true.
Proof.
  intros Hx.
  pose proof (Prim2SF_valid x) as Hvx.
  pose proof (Prim2SF_valid (tol_equal * x)) as Hv1.
  pose proof (Prim2SF_valid (tol_close * x)) as Hv2.
  rewrite !mul_spec. rewrite mul_spec in Hv1, Hv2.
  rewrite tol_equal_SF in *. rewrite tol_close_SF in *.
  destruct (Prim2SF x) as [s|[]| |[] mx ex]; try done;
    try (by destruct s).
  cbn [SF64mul SFmul xorb] in *.
  apply valid_finite in Hvx as [Hcx Hex].
  apply canonical_digits in Hcx as (Hminx & Hhix & _).
  set (m1 := (4611686018427388 * mx)%positive) in *.
  set (m2 := (7205759403792794 * mx)%positive) in *.
  set (e1 := -61 + ex) in *. set (e2 := -57 + ex) in *.
  assert (Z.pos m1 ≤ Z.pos m2) as Hm12 by (subst m1 m2; lia).
  destruct (binary_round_aux_bounds m1 e1) as [B1 Z1].
  destruct (binary_round_aux_bounds m2 e2) as [B2 _].
  cbv zeta in B1, Z1, B2. rewrite !fexp_eq in B1, Z1, B2.
  set (n1 := Z.max 0 (Z.max (Z.pos (digits2_pos m1) + e1 - 53) (-1074) - e1))
    in *.
  set (n2 := Z.max 0 (Z.max (Z.pos (digits2_pos m2) + e2 - 53) (-1074) - e2))
    in *.
  assert (Z.pos m2 < 2 ^ n2 →
          binary_round_aux prec emax false (Z.pos m1) e1 loc_Exact
          = S754_zero false) as Hsmall.
  { intros Hlt. apply Z1.
    destruct (digits2_pos_bounds m2) as [Hd2 _].
    assert (Z.pos (digits2_pos m2) ≤ n2) as Hdn.
    { destruct (Z.le_gt_cases (Z.pos (digits2_pos m2)) n2) as [|Hgt];
        [done|]. exfalso.
      assert (2 ^ n2 ≤ 2 ^ (Z.pos (digits2_pos m2) - 1))
        by (apply Z.pow_le_mono_r; lia). lia. }
    assert (n2 + 4 ≤ n1) as Hn by (subst n1 n2 e1 e2; lia).
    assert (2 ^ n2 * 2 ^ 4 ≤ 2 ^ n1) as Hpow.
    { rewrite <- pow2_split by lia. apply Z.pow_le_mono_r; lia. }
    change (2 ^ 4) with 16 in Hpow. lia. }
  assert (Z.pos m1 < 2 ^ 106) as Hm1.
  { subst m1. rewrite Pos2Z.inj_mul.
    change (2 ^ 106) with (2 ^ 53 * 2 ^ 53).
    assert (4611686018427388 < 2 ^ 53) by done. nia. }
  assert (Z.pos (digits2_pos m1) ≤ 106) as Hd1
    by (apply (Zdigits2_le (Z.pos m1)); lia).
  destruct (binary_round_aux prec emax false (Z.pos m1) e1 loc_Exact)
    as [s1|s1| |s1 mf1 ef1] eqn:Ht1; [| | |].
  + destruct B1 as [-> _]. apply SFleb_zero_nonneg.
    apply binary_round_aux_nonneg. lia.
  + exfalso. destruct B1 as [_ B1]. change (emax - prec) with 971 in B1.
    subst n1 e1. lia.
  + done.
  + destruct B1 as (-> & He1 & Hup1 & _).
    apply valid_finite in Hv1 as [Hc1 _].
    destruct (binary_round_aux prec emax false (Z.pos m2) e2 loc_Exact)
      as [s2|s2| |s2 mf2 ef2] eqn:Ht2.
    * destruct B2 as [_ B2]. by specialize (Hsmall B2).
    * by destruct B2 as [-> _].
    * done.
    * destruct B2 as (-> & He2 & _ & Hlo2).
      apply valid_finite in Hv2 as [Hc2 _].
      apply (SFleb_of_value mf1 ef1 mf2 ef2 e1 Hc1 Hc2);
        [subst n1; lia|subst n2 e1 e2; lia|].
      destruct (Z.le_gt_cases (2 ^ n2) (Z.pos m2)) as [Hbig|Hlt];
        [|by specialize (Hsmall Hlt)].
      specialize (Hlo2 Hbig).
      assert (2 ^ (ef2 - e1) = 2 ^ (ef2 - e2) * 16) as ->.
      { replace (ef2 - e1) with ((ef2 - e2) + 4) by (subst e1 e2; lia).
        rewrite pow2_split by (subst n2; lia). done. }
      lia.
Qed.

Lemma tol_mul_nonneg tol M :
  (0 <? tol)%float = true → (tol <? infinity)%float = true →
  sf_nonneg (Prim2SF M) = true → sf_nonneg (Prim2SF (tol * M)) = true.
Proof.
  intros Hpos Hfin HM. rewrite ltb_spec in Hfin, Hpos.
  change (Prim2SF 0) with (S754_zero false) in Hpos.
  change (Prim2SF infinity) with (S754_infinity false) in Hfin.
  rewrite mul_spec.
  destruct (Prim2SF tol) as [s|[]| |[] m e]; try done.
  by apply SF64mul_finite_nonneg.
Qed.

Lemma float_test_mono d M :
  sf_nonneg (Prim2SF M) = true →
  (d <=? tol_equal * M)%float = true → (d <=? tol_close * M)%float = true.
Proof.
  intros HM. rewrite !leb_spec. intros Hd.
  eapply SFleb_trans_nonneg; [| |exact Hd|by apply tol_mul_mono];
    by apply tol_mul_nonneg.
Qed.

Lemma int_le_float_finite k t m e E :
  Prim2SF t = S754_finite false m e → E ≤ e → E ≤ 0 →
  int_le_float k t = true ↔ k * 2 ^ (- E) ≤ Z.pos m * 2 ^ (e - E).
Proof.
  intros Ht He HE. unfold int_le_float, cmp_int_float. rewrite Ht.
  cbn [cond_Zopp].
  assert (0 < 2 ^ (- E)) as Hp by (apply Z.pow_pos_nonneg; lia).
  destruct (Z.leb_spec 0 e) as [Hpos|Hneg].
  - replace (e - E) with (e + (- E)) by lia. rewrite pow2_split by lia.
    assert (0 < 2 ^ e) by (apply Z.pow_pos_nonneg; lia).
    destruct (Z.compare_spec k (Z.pos m * 2 ^ e)); split; try done; nia.
  - replace (- E) with (- e + (e - E)) by lia. rewrite pow2_split by lia.
    assert (0 < 2 ^ (e - E)) by (apply Z.pow_pos_nonneg; lia).
    assert (0 < 2 ^ (- e)) by (apply Z.pow_pos_nonneg; lia).
    destruct (Z.compare_spec (k * 2 ^ (- e)) (Z.pos m)); split; try done; nia.
Qed.

Lemma int_le_float_mono k t1 t2 :
  0 ≤ k →
  sf_nonneg (Prim2SF t1) = true → sf_nonneg (Prim2SF t2) = true →
  SFleb (Prim2SF t1) (Prim2SF t2) = true →
  int_le_float k t1 = true → int_le_float k t2 = true.
Proof.
  intros Hk H1 H2 Hle Hk1.
  pose proof (Prim2SF_valid t1) as Hv1. pose proof (Prim2SF_valid t2) as Hv2.
  destruct (Prim2SF t1) as [s1|[]| |[] m1 e1] eqn:Ht1; try done.
  - assert (k = 0) as ->.
    { unfold int_le_float, cmp_int_float in Hk1. rewrite Ht1 in Hk1.
      destruct (Z.compare_spec k 0); try done; lia. }
    unfold int_le_float.
    by destruct (cmp_int_float_zero_nonneg t2 H2) as [-> | ->].
  - unfold int_le_float, cmp_int_float.
    by destruct (Prim2SF t2) as [s2|[]| |[] m2 e2].
  - destruct (Prim2SF t2) as [s2|[]| |[] m2 e2] eqn:Ht2; try done.
    + unfold int_le_float, cmp_int_float. by rewrite Ht2.
    + apply valid_finite in Hv1 as [Hc1 _].
      apply valid_finite in Hv2 as [Hc2 _].
      set (E := Z.min 0 (Z.min e1 e2)).
      apply (int_le_float_finite k t1 m1 e1 E Ht1) in Hk1; [|lia..].
      apply (int_le_float_finite k t2 m2 e2 E Ht2); [lia..|].
      apply (SFleb_of_value m1 e1 m2 e2 E Hc1 Hc2) in Hle; [|lia..].
      lia.
Qed.

Section StrictTolerant.

Variable str_lower : pystr → pystr.

Lemma plain_int_float z :
  plain_value (VInt z) = true →
  0 ≤ z ∧ ∃ g, float_of_int z = Ok g ∧ sf_nonneg (Prim2SF g) = true.
Proof.
  simpl. intros [Hz Hf]%andb_prop. apply Z.leb_le in Hz. split; [done|].
  destruct (float_of_int z) as [g|] eqn:Hg; [|done].
  exists g. split; [done|]. by eapply float_of_int_nonneg.
Qed.

Lemma within_mono a b :
  is_str a = false → is_str b = false →
  plain_value a = true → plain_value b = true →
  within tol_equal a b = Ok true → within tol_close a b = Ok true.
Proof.
  intros Ha Hb Pa Pb. unfold within.
  destruct a as [|x|f], b as [|y|g]; try done.
  - destruct (plain_int_float x Pa) as (Hx & fx & Hfx & Hnx).
    destruct (plain_int_float y Pb) as (Hy & fy & Hfy & Hny).
    cbn [py_sub bind py_abs py_max py_lt].
    destruct (x <? y); cbn [py_mul bind]; rewrite ?Hfx, ?Hfy; cbn [bind py_le];
      intros [= Hk]; f_equal.
    + apply (int_le_float_mono (Z.abs (x - y)) (tol_equal * fy)); try done;
        try lia; try (by apply tol_mul_nonneg); by apply tol_mul_mono.
    + apply (int_le_float_mono (Z.abs (x - y)) (tol_equal * fx)); try done;
        try lia; try (by apply tol_mul_nonneg); by apply tol_mul_mono.
  - destruct (plain_int_float x Pa) as (Hx & fx & Hfx & Hnx).
    destruct (plain_float g Pb) as [Hng _].
    cbn [py_sub bind py_abs py_max py_lt]. rewrite Hfx. cbn [bind py_abs].
    destruct (match cmp_int_float x g with Some Lt => true | _ => false end);
      cbn [py_mul bind]; rewrite ?Hfx; cbn [bind py_le];
      intros [= Hk]; f_equal; by apply float_test_mono.
  - destruct (plain_float f Pa) as [Hnf _].
    destruct (plain_int_float y Pb) as (Hy & fy & Hfy & Hny).
    cbn [py_sub bind py_abs py_max py_lt]. rewrite Hfy. cbn [bind py_abs].
    destruct (match cmp_int_float y f with Some Gt => true | _ => false end);
      cbn [py_mul bind]; rewrite ?Hfy; cbn [bind py_le];
      intros [= Hk]; f_equal; by apply float_test_mono.
  - destruct (plain_float f Pa) as [Hnf _].
    destruct (plain_float g Pb) as [Hng _].
    cbn [py_sub bind py_abs py_max py_lt].
    destruct (f <? g)%float; cbn [py_mul bind py_le];
      intros [= Hk]; f_equal; by apply float_test_mono.
Qed.

(** X4: from zero on the strict test implies the tolerant one: two
    values that [are_equal] accepts, each a string or a finite number that
    is not negative, are accepted by [are_close_enough] too.  The product of
    the tolerance and the maximum is rounded, and rounding keeps the order
    of the two products. *)
Theorem strict_implies_tolerant (a b : value) :
  plain_value a = true → plain_value b = true →
  are_equal a b = Ok true → are_close_enough str_lower a b = Ok true.
Proof.
  intros Pa Pb.
  destruct (is_str a) eqn:Ha, (is_str b) eqn:Hb.
  - destruct a as [s| |], b as [t| |]; try done.
    simpl. intros [= H%bool_decide_eq_true]. f_equal.
    apply bool_decide_eq_true.
    by rewrite (close_key_strip str_lower s), (close_key_strip str_lower t), H.
  - by destruct a, b.
  - by destruct a, b.
  - rewrite are_equal_within, are_close_enough_within by done.
    by apply within_mono.
Qed.

End StrictTolerant.

End Rounding.

Lemma strict_implies_tolerant_witness :
  are_close_enough ascii_lower (VFloat 100) (VFloat 100.125) = Ok true.
Proof.
  apply (strict_implies_tolerant ascii_lower); vm_compute; reflexivity.
Defined.

(** ** Building a record from texts *)

Lemma drop_zeros_replicate n s :
  drop_zeros (replicate n 48%N ++ s) = drop_zeros s.
Proof. induction n as [|n IH]; [done|]. simpl. apply IH. Qed.

Lemma drop_zeros_elem s c : c ∈ drop_zeros s → c ∈ s.
Proof.
  induction s as [|d s IH]; [done|]. simpl.
  destruct (d =? 48)%N; [|done]. set_solver.
Qed.

Lemma reverse_replicate {A} n (x : A) :
  reverse (replicate n x) = replicate n x.
Proof.
  induction n as [|n IH]; [done|]. simpl. rewrite reverse_cons, IH.
  clear IH. induction n as [|n IH]; [done|]. simpl. by rewrite IH.
Qed.

(** X8: the substitution [from_text] applies to the text of an integer
    field removes a final point followed by any number of zeros, so that
    [12.00] is read as [12], and leaves a text without a point as it
    is. *)
Theorem sub_point_zeros_spec (s : pystr) (n : nat) :
  sub_point_zeros (s ++ [46%N] ++ replicate n 48%N) = s ∧
  (46%N ∉ s → sub_point_zeros s = s).
Proof.
  split.
  - unfold sub_point_zeros.
    rewrite !reverse_app, reverse_replicate, reverse_singleton, <- app_assoc.
    destruct n as [|n]; cbn [replicate app N.eqb Pos.eqb].
    + cbn [drop_zeros N.eqb Pos.eqb]. by rewrite reverse_involutive, app_nil_r.
    + change (drop_zeros (48%N :: ?l)) with (drop_zeros l).
      rewrite drop_zeros_replicate. cbn [app drop_zeros N.eqb Pos.eqb].
      by rewrite reverse_involutive, app_nil_r.
  - intros Hs. unfold sub_point_zeros.
    destruct (reverse s) as [|c r] eqn:Hr; [done|].
    assert (46%N ∉ c :: r) as Hcr.
    { rewrite <- Hr. by rewrite elem_of_reverse. }
    destruct (c =? 10)%N.
    + destruct (drop_zeros r) as [|d p] eqn:Hd; [done|].
      destruct (N.eqb_spec d 46) as [->|]; [|done].
      exfalso. apply Hcr. right. apply drop_zeros_elem. rewrite Hd. by left.
    + destruct (drop_zeros (c :: r)) as [|d p] eqn:Hd; [done|].
      destruct (N.eqb_spec d 46) as [->|]; [|done].
      exfalso. apply Hcr. apply drop_zeros_elem. rewrite Hd. by left.
Qed.

Section FromTextProperties.

Variable float_of_str : pystr → option float.
Variable int_of_str : pystr → option Z.

Lemma from_text_field_read raw key t acc :
  from_text_field float_of_str int_of_str raw (key, t) acc =
  match read_field float_of_str int_of_str raw key t with
  | None => Ok acc
  | Some o => let* v := o in Ok (<[key := v]> acc)
  end.
Proof.
  unfold from_text_field, read_field.
  by destruct (raw !! key) as [[|c text]|].
Qed.

Lemma convert_raise t text e :
  convert float_of_str int_of_str t text = Raise e → e = ValueError.
Proof.
  destruct t; simpl; [done|..].
  - destruct (float_of_str text); congruence.
  - destruct (int_of_str text); congruence.
Qed.

Lemma convert_has_type t text v :
  convert float_of_str int_of_str t text = Ok v → has_type t v.
Proof.
  destruct t; simpl.
  - by intros [= <-].
  - destruct (float_of_str text); [|done]. by intros [= <-].
  - destruct (int_of_str text); [|done]. by intros [= <-].
Qed.

Lemma from_text_loop raw items : ∀ acc,
  NoDup items.*1 →
  match for_each (from_text_field float_of_str int_of_str raw) items acc with
  | Ok m =>
      (∀ key t, (key, t) ∈ items →
         match read_field float_of_str int_of_str raw key t with
         | None => m !! key = acc !! key
         | Some o => ∃ v, o = Ok v ∧ m !! key = Some v
         end) ∧
      (∀ key, key ∉ items.*1 → m !! key = acc !! key)
  | Raise e =>
      e = ValueError ∧
      ∃ key t, (key, t) ∈ items ∧
        read_field float_of_str int_of_str raw key t = Some (Raise ValueError)
  end.
Proof.
  induction items as [|[k t] items IH]; intros acc Hnd.
  - simpl. split; [|done]. by intros ?? ?%elem_of_nil.
  - apply NoDup_cons in Hnd as [Hk Hnd]. cbn [for_each].
    rewrite from_text_field_read.
    destruct (read_field _ _ raw k t) as [[v|e]|] eqn:Hread; cbn [bind].
    + specialize (IH (<[k := v]> acc) Hnd).
      destruct (for_each _ items _) as [m|e].
      * destruct IH as [Hin Hout]. split.
        -- intros key t' [[= -> ->]|Hin']%elem_of_cons.
           ++ rewrite Hread. exists v. split; [done|].
              rewrite Hout by done. apply lookup_insert_eq.
           ++ specialize (Hin key t' Hin').
              assert (key ≠ k) as Hne.
              { intros ->. apply Hk. apply list_elem_of_fmap. by exists (k, t'). }
              destruct (read_field _ _ raw key t'); [done|].
              by rewrite Hin, lookup_insert_ne.
        -- intros key Hkey. rewrite fmap_cons in Hkey.
           apply not_elem_of_cons in Hkey as [Hne Hkey].
           by rewrite Hout, lookup_insert_ne.
      * destruct IH as (-> & key & t' & Hin & Hr). split; [done|].
        exists key, t'. split; [by right|done].
    + assert (e = ValueError) as ->.
      { unfold read_field in Hread.
        destruct (raw !! k) as [[|c text]|]; try done.
        injection Hread as Hread. by apply convert_raise in Hread. }
      split; [done|]. exists k, t. split; [by left|done].
    + specialize (IH acc Hnd).
      destruct (for_each _ items _) as [m|e].
      * destruct IH as [Hin Hout]. split.
        -- intros key t' [[= -> ->]|Hin']%elem_of_cons.
           ++ rewrite Hread. by apply Hout.
           ++ by apply Hin.
        -- intros key Hkey. rewrite fmap_cons in Hkey.
           apply not_elem_of_cons in Hkey as [Hne Hkey]. by apply Hout.
      * destruct IH as (-> & key & t' & Hin & Hr). split; [done|].
        exists key, t'. split; [by right|done].
Qed.

(** X5: [from_text] either returns a record or raises [ValueError].  The
    record it returns has keys of the schema only; a field whose text is
    missing or empty is absent from it, and every other field holds the
    conversion of its text, of the type the schema declares.  It raises
    exactly when a field of the schema has a text that is not empty and
    does not convert. *)
Theorem from_text_outcome (raw : gmap pystr pystr) :
  match from_text float_of_str int_of_str raw with
  | Ok r =>
      well_typed r ∧
      ∀ key t, (key, t) ∈ annotations →
        match raw !! key with
        | None | Some [] => data r !! key = None
        | Some text =>
            ∃ v, convert float_of_str int_of_str t (prepared t text) = Ok v ∧
                 data r !! key = Some v ∧ has_type t v
        end
  | Raise e =>
      e = ValueError ∧
      ∃ key t text, (key, t) ∈ annotations ∧ raw !! key = Some text ∧
        text ≠ [] ∧
        convert float_of_str int_of_str t (prepared t text) = Raise ValueError
  end.
Proof.
  unfold from_text.
  pose proof (from_text_loop raw annotations ∅ schema_keys_NoDup) as H.
  destruct (for_each _ annotations ∅) as [m|e]; cbn [bind].
  - destruct H as [Hin Hout]. split.
    + unfold well_typed. cbn [data]. intros key [v Hv]%elem_of_dom.
      apply elem_of_list_to_set. destruct (decide (key ∈ schema_keys)); [done|].
      rewrite Hout, lookup_empty in Hv by done. done.
    + intros key t Hkt. specialize (Hin key t Hkt). unfold read_field in Hin.
      simpl. destruct (raw !! key) as [[|c text]|]; [done| |done].
      destruct Hin as (v & Hc & Hm). exists v. split_and!; [done..|].
      by eapply convert_has_type.
  - destruct H as (-> & key & t & Hkt & Hr). split; [done|].
    unfold read_field in Hr.
    destruct (raw !! key) as [[|c text]|] eqn:Hraw; try done.
    exists key, t, (c :: text). split_and!; [done..|congruence].
Qed.

(** X6: a string field of a record built by [from_text] reads back, through
    [get], as the text that was given for it, and as the empty string when
    none was given. *)
Theorem from_text_get_str (raw : gmap pystr pystr) (r : DeviceCarbonFootprint)
    (key : pystr) :
  from_text float_of_str int_of_str raw = Ok r →
  (key, TStr) ∈ annotations →
  get r key = Ok (VStr (default [] (raw !! key))).
Proof.
  unfold from_text. intros Hr Hkey.
  pose proof (from_text_loop raw annotations ∅ schema_keys_NoDup) as H.
  destruct (for_each _ annotations ∅) as [m|e]; [|done].
  cbn [bind] in Hr. injection Hr as <-. destruct H as [H _].
  specialize (H key TStr Hkey). unfold read_field in H.
  assert (key ∈ schema_keys) as Hs.
  { apply list_elem_of_fmap. by exists (key, TStr). }
  destruct (raw !! key) as [[|c text]|]; simpl.
  - by rewrite get_schema by done; unfold field; cbn [data]; rewrite H.
  - destruct H as (v & [= <-] & Hv). by apply get_stored.
  - by rewrite get_schema by done; unfold field; cbn [data]; rewrite H.
Qed.

(** X7: a text given under a name that is not a field of the schema
    changes nothing: [from_text] neither stores it nor fails on it. *)
Theorem from_text_unknown_key (raw : gmap pystr pystr) (key text : pystr) :
  key ∉ schema_keys →
  from_text float_of_str int_of_str (<[key := text]> raw)
  = from_text float_of_str int_of_str raw.
Proof.
  intros Hkey. unfold from_text. f_equal.
  assert (∀ items acc, (∀ k t, (k, t) ∈ items → k ∈ schema_keys) →
            for_each (from_text_field float_of_str int_of_str
                        (<[key := text]> raw)) items acc
            = for_each (from_text_field float_of_str int_of_str raw) items acc)
    as H.
  { induction items as [|[k t] items IH]; intros acc Hk; [done|].
    cbn [for_each].
    assert (from_text_field float_of_str int_of_str (<[key := text]> raw)
              (k, t) acc
            = from_text_field float_of_str int_of_str raw (k, t) acc) as ->.
    { unfold from_text_field. rewrite lookup_insert_ne; [done|].
      intros ->. apply Hkey. eapply Hk. by left. }
    destruct (from_text_field _ _ raw (k, t) acc); [|done]. cbn [bind].
    apply IH. intros k' t' Hin. eapply Hk. by right. }
  rewrite H; [done|]. intros k t Hin. apply list_elem_of_fmap. by exists (k, t).
Qed.

End FromTextProperties.

Lemma from_text_get_str_witness :
  from_text (λ _, None) (λ _, None) {[ lit "name" := lit "Book 13" ]}
  = Ok {| data := {[ lit "name" := VStr (lit "Book 13") ]} |} ∧
  get {| data := {[ lit "name" := VStr (lit "Book 13") ]} |} (lit "name")
  = Ok (VStr (lit "Book 13")).
Proof.
  assert (from_text (λ _, None) (λ _, None) {[ lit "name" := lit "Book 13" ]}
          = Ok {| data := {[ lit "name" := VStr (lit "Book 13") ]} |}) as Hrun
    by (vm_compute; reflexivity).
  split; [exact Hrun|].
  apply (from_text_get_str (λ _, None) (λ _, None) _ _ (lit "name") Hrun).
  apply (bool_decide_unpack _). vm_compute. reflexivity.
Defined.

Lemma from_text_unknown_key_witness :
  from_text (λ _, None) (λ _, None)
    (<[ lit "serial" := lit "X1" ]> {[ lit "name" := lit "Book 13" ]})
  = from_text (λ _, None) (λ _, None) {[ lit "name" := lit "Book 13" ]}.
Proof.
  apply (from_text_unknown_key (λ _, None) (λ _, None)).
  apply (bool_decide_unpack _). vm_compute. reflexivity.
Defined.

(** ** Normalising a record *)

Lemma replace_char_drop old s : old ∉ replace_char old [] s.
Proof.
  unfold replace_char. intros Hin.
  apply list_elem_of_bind in Hin as (c & Hc & _).
  destruct (N.eqb_spec c old); set_solver.
Qed.

Lemma replace_char_subset old new s c :
  c ∈ replace_char old new s → c ∈ new ∨ c ∈ s.
Proof.
  unfold replace_char. intros Hin.
  apply list_elem_of_bind in Hin as (d & Hc & Hd).
  destruct (d =? old)%N; [by left|right].
  by apply list_elem_of_singleton in Hc as ->.
Qed.

Lemma replace_char_drop_subset old s c : c ∈ replace_char old [] s → c ∈ s.
Proof. intros [H|H]%replace_char_subset; [|done]. by apply elem_of_nil in H. Qed.

Lemma strip_subset s c : c ∈ strip s → c ∈ s.
Proof.
  destruct (strip_split s) as (l & r & _ & _ & Hs). intros Hin.
  rewrite Hs. set_solver.
Qed.

Lemma clean_chars s c :
  c ∈ clean s → c ∈ s ∧ c ≠ 44%N ∧ c ≠ 34%N ∧ c ≠ 59%N.
Proof.
  unfold clean. intros Hin%strip_subset. split_and!.
  - by do 3 apply replace_char_drop_subset in Hin.
  - intros ->. do 2 apply replace_char_drop_subset in Hin.
    by apply replace_char_drop in Hin.
  - intros ->. apply replace_char_drop_subset in Hin.
    by apply replace_char_drop in Hin.
  - intros ->. by apply replace_char_drop in Hin.
Qed.

Lemma clean_fixed s :
  44%N ∉ s → 34%N ∉ s → 59%N ∉ s → trimmed s → clean s = s.
Proof.
  intros H1 H2 H3 Ht. unfold clean.
  rewrite (replace_char_absent 44 [] s), (replace_char_absent 34 [] s),
    (replace_char_absent 59 [] s) by done.
  by apply strip_of_trimmed.
Qed.

Lemma clean_idempotent s : clean (clean s) = clean s.
Proof.
  apply clean_fixed; try (intros Hin%clean_chars; naive_solver).
  apply strip_trimmed.
Qed.

Lemma normal_idempotent v : normal (normal v) = normal v.
Proof. destruct v; simpl; [|done..]. by rewrite clean_idempotent. Qed.

Lemma reorder_field_normal d key acc :
  key ∈ schema_keys →
  reorder_field d key acc = Ok (<[key := normal (field d key)]> acc).
Proof.
  intros Hin. unfold reorder_field. rewrite get_schema by done. cbn [bind].
  by destruct (field d key).
Qed.

Lemma reorder_loop d ks : ∀ acc,
  (∀ k, k ∈ ks → k ∈ schema_keys) →
  ∃ m, for_each (reorder_field d) ks acc = Ok m ∧
    ∀ key, m !! key =
      if bool_decide (key ∈ ks) then Some (normal (field d key))
      else acc !! key.
Proof.
  induction ks as [|k ks IH]; intros acc Hks.
  - exists acc. split; [done|]. intros key.
    by rewrite bool_decide_eq_false_2 by set_solver.
  - simpl. rewrite reorder_field_normal by set_solver. cbn [bind].
    destruct (IH (<[k := normal (field d k)]> acc)) as (m & -> & Hm);
      [set_solver|].
    exists m. split; [done|]. intros key. rewrite Hm.
    destruct (decide (key = k)) as [->|Hne].
    + rewrite lookup_insert_eq.
      rewrite (bool_decide_eq_true_2 (k ∈ k :: ks)) by set_solver.
      by case_bool_decide.
    + rewrite lookup_insert_ne by done.
      case_bool_decide; [by rewrite bool_decide_eq_true_2 by set_solver|].
      by rewrite bool_decide_eq_false_2 by set_solver.
Qed.

Lemma reorder_lookup d :
  ∃ r, reorder d = Ok r ∧
    ∀ key, data r !! key =
      if bool_decide (key ∈ schema_keys) then Some (normal (field d key))
      else None.
Proof.
  unfold reorder.
  destruct (reorder_loop d schema_keys ∅) as (m & -> & Hm); [done|].
  exists {| data := m |}. split; [done|]. intros key. simpl. rewrite Hm.
  by rewrite lookup_empty.
Qed.

(** X9: [reorder] always returns; the record it returns stores every field
    of the schema and nothing else, a string without its commas, double
    quotes and semicolons and stripped, any other value as it was, and the
    empty string where the record had nothing. *)
Theorem reorder_fields (d : DeviceCarbonFootprint) :
  ∃ r, reorder d = Ok r ∧
    dom (data r) = list_to_set schema_keys ∧
    ∀ key, key ∈ schema_keys → get r key = Ok (normal (field d key)).
Proof.
  destruct (reorder_lookup d) as (r & Hr & Hd). exists r.
  split; [done|]. split.
  - apply set_eq. intros key. rewrite elem_of_dom, elem_of_list_to_set, Hd.
    case_bool_decide; [naive_solver|]. split; [by intros [? ?]|done].
  - intros key Hkey. apply get_stored.
    by rewrite Hd, bool_decide_eq_true_2.
Qed.

(** X10: [reorder] is idempotent: a record it returned is returned
    unchanged. *)
Theorem reorder_idempotent (d : DeviceCarbonFootprint) :
  (let* r := reorder d in reorder r) = reorder d.
Proof.
  destruct (reorder_lookup d) as (r & Hr & Hd). rewrite Hr. cbn [bind].
  destruct (reorder_lookup r) as (r' & -> & Hd'). f_equal.
  destruct r as [m], r' as [m']. f_equal. apply map_eq. intros key.
  simpl in *. rewrite Hd', Hd. case_bool_decide; [|done].
  f_equal. unfold field. simpl. rewrite Hd, bool_decide_eq_true_2 by done.
  simpl. apply normal_idempotent.
Qed.

(** ** Rows of normalised records *)

Lemma occurrences_app c s t :
  occurrences c (s ++ t) = (occurrences c s + occurrences c t)%nat.
Proof. apply count_occ_app. Qed.

Lemma occurrences_absent c s : c ∉ s → occurrences c s = 0%nat.
Proof. rewrite list_elem_of_In. apply count_occ_not_In. Qed.

Lemma occurrences_cons c d s :
  occurrences c (d :: s)
  = ((if bool_decide (d = c) then 1 else 0) + occurrences c s)%nat.
Proof.
  unfold occurrences. simpl.
  destruct (N.eq_dec d c); by case_bool_decide.
Qed.

Lemma occurrences_double_quotes c s :
  c ≠ quotechar →
  occurrences c (replace_char quotechar [quotechar; quotechar] s)
  = occurrences c s.
Proof.
  intros Hc. induction s as [|d s IH]; [done|].
  change (replace_char quotechar [quotechar; quotechar] (d :: s))
    with ((if (d =? quotechar)%N then [quotechar; quotechar] else [d])
          ++ replace_char quotechar [quotechar; quotechar] s).
  rewrite occurrences_app, IH. change (d :: s) with ([d] ++ s).
  rewrite (occurrences_app c [d]). f_equal.
  destruct (N.eqb_spec d quotechar) as [->|]; [|done].
  rewrite !occurrences_absent; [done|set_solver..].
Qed.

Lemma occurrences_csv_quote c s :
  c ≠ quotechar → occurrences c (csv_quote c s) = occurrences c s.
Proof.
  intros Hc. unfold csv_quote. destruct (existsb _ s); [|done].
  rewrite !occurrences_app, occurrences_double_quotes by done.
  rewrite (occurrences_absent c [quotechar]) by set_solver. lia.
Qed.

Lemma occurrences_concat c rest :
  (∀ f, f ∈ rest → occurrences c f = 0%nat) →
  occurrences c (concat ((λ y, c :: y) <$> rest)) = length rest.
Proof.
  induction rest as [|y rest IH]; intros Hrest; [done|].
  rewrite fmap_cons. cbn [concat length concat].
  rewrite occurrences_app, occurrences_cons, bool_decide_eq_true_2 by done.
  rewrite (Hrest y), IH by set_solver. done.
Qed.

Lemma occurrences_join c fields :
  (∀ f, f ∈ fields → occurrences c f = 0%nat) →
  occurrences c (join c fields) = (length fields - 1)%nat.
Proof.
  destruct fields as [|x rest]; [done|]. intros Hf. unfold join.
  rewrite occurrences_app, (Hf x), occurrences_concat by set_solver.
  simpl. by rewrite Nat.sub_0_r.
Qed.

(** The decimal digits of an integer and its sign. *)
Lemma string_of_uint_chars d c :
  c ∈ lit (NilEmpty.string_of_uint d) ∨ c ∈ lit (NilZero.string_of_uint d) →
  (45 ≤ c ≤ 57)%N.
Proof.
  assert (∀ d, c ∈ lit (NilEmpty.string_of_uint d) → (48 ≤ c ≤ 57)%N) as Hd.
  { clear d. induction d as [|d IH|d IH|d IH|d IH|d IH|d IH|d IH|d IH|d IH|d IH];
      simpl; [by intros ?%elem_of_nil|..];
      (intros [->|Hin]%elem_of_cons; [by vm_compute|by apply IH]). }
  intros [Hin|Hin].
  - apply Hd in Hin. lia.
  - destruct d; [apply list_elem_of_singleton in Hin as ->; by vm_compute|..];
      apply Hd in Hin; lia.
Qed.

Section Rows.

Variable float_repr : float → pystr.

Lemma int_chars z c : c ∈ py_str float_repr (VInt z) → (45 ≤ c ≤ 57)%N.
Proof.
  simpl. destruct (Z.to_int z) as [d|d]; simpl.
  - intros Hin. eapply string_of_uint_chars. by right.
  - intros [->|Hin]%elem_of_cons; [done|].
    eapply string_of_uint_chars. by right.
Qed.

Lemma as_csv_row_join d fmt :
  as_csv_row float_repr d fmt =
  Ok (join (delimiter fmt)
        ((λ key, csv_quote (delimiter fmt) (cell float_repr fmt (field d key)))
           <$> schema_keys)
      ++ [13; 10]%N).
Proof.
  unfold as_csv_row. rewrite list_comp_get by done. cbn [bind]. f_equal.
  unfold _format_csv_row.
  rewrite csv_writerow_join by (rewrite !length_fmap; vm_compute; lia).
  rewrite <- !list_fmap_compose. fold (delimiter fmt). do 2 f_equal.
  apply list_fmap_ext. intros _ key _. cbn [compose]. f_equal.
  by destruct fmt, (field d key).
Qed.

Hypothesis float_repr_chars : ∀ f, 44%N ∉ float_repr f ∧ 59%N ∉ float_repr f.

Lemma cell_normal_delimiter fmt v :
  delimiter fmt ∉ cell float_repr fmt (normal v).
Proof.
  destruct v as [s|z|f].
  - assert (cell float_repr fmt (normal (VStr s)) = clean s) as ->
      by by destruct fmt.
    intros Hin%clean_chars. destruct fmt; naive_solver.
  - assert (cell float_repr fmt (normal (VInt z)) = py_str float_repr (VInt z))
      as -> by by destruct fmt.
    intros Hin%int_chars. destruct fmt; simpl in Hin; lia.
  - destruct (float_repr_chars f) as [Hc Hs]. destruct fmt; simpl; [done|].
    intros [Hin|Hin]%replace_char_subset; [|done].
    by apply list_elem_of_singleton in Hin.
Qed.

(** X11: when [repr] of a float holds neither a comma nor a semicolon, the
    row that [as_csv_row] writes for a record returned by [reorder] holds
    as many delimiters as the row of [csv_headers], in either format: no
    value of such a record puts a delimiter of its own in the row. *)
Theorem reordered_row_delimiters (d : DeviceCarbonFootprint)
    (fmt : csv_format) :
  ∃ r row, reorder d = Ok r ∧ as_csv_row float_repr r fmt = Ok row ∧
    occurrences (delimiter fmt) row
    = occurrences (delimiter fmt) (csv_headers float_repr fmt).
Proof.
  destruct (reorder_lookup d) as (r & Hr & Hd). exists r.
  rewrite as_csv_row_join. eexists. split_and!; [done..|].
  assert (delimiter fmt ≠ quotechar) as Hq by by destruct fmt.
  rewrite occurrences_app, occurrences_join.
  - rewrite length_fmap. by destruct fmt; vm_compute.
  - intros f (key & -> & Hin)%list_elem_of_fmap.
    rewrite occurrences_csv_quote by done. apply occurrences_absent.
    unfold field. rewrite Hd, bool_decide_eq_true_2 by done. simpl.
    apply cell_normal_delimiter.
Qed.

End Rows.

Lemma sample_repr_chars f : 44%N ∉ sample_repr f ∧ 59%N ∉ sample_repr f.
Proof.
  unfold sample_repr.
  destruct (f =? 1.5)%float; split; apply (bool_decide_unpack _);
    vm_compute; reflexivity.
Qed.

Lemma reordered_row_delimiters_witness :
  ∃ r row, reorder device_b = Ok r ∧ as_csv_row sample_repr r Fr = Ok row ∧
    occurrences 59 row = occurrences 59 (csv_headers sample_repr Fr).
Proof.
  apply (reordered_row_delimiters sample_repr sample_repr_chars device_b Fr).
Defined.

(** ** The merger *)

Lemma sublist_same_elements {A} (l1 l2 l : list A) :
  NoDup l → l1 `sublist_of` l → l2 `sublist_of` l →
  (∀ x, x ∈ l1 ↔ x ∈ l2) → l1 = l2.
Proof.
  intros Hnd. revert l1 l2.
  induction l as [|a l IH]; intros l1 l2 H1 H2 Heq.
  - apply sublist_nil_r in H1 as ->. by apply sublist_nil_r in H2 as ->.
  - apply NoDup_cons in Hnd as [Ha Hnd].
    assert (∀ k, k `sublist_of` l → a ∉ k) as Hfresh.
    { intros k Hk Hin. apply Ha. by eapply elem_of_sublist. }
    apply sublist_cons_r in H1 as [H1|(k1 & -> & H1)];
      apply sublist_cons_r in H2 as [H2|(k2 & -> & H2)].
    + by apply IH.
    + exfalso. apply (Hfresh l1 H1). apply Heq. by left.
    + exfalso. apply (Hfresh l2 H2). apply Heq. by left.
    + f_equal. apply IH; [done..|]. intros x. split; intros Hx.
      * assert (x ∈ a :: k2) as [->|]%elem_of_cons by (apply Heq; by right);
          [by apply Hfresh in Hx|done].
      * assert (x ∈ a :: k1) as [->|]%elem_of_cons by (apply Heq; by right);
          [by apply Hfresh in Hx|done].
Qed.

Lemma plain_finite v : plain_field v = true → finite_int v = true.
Proof.
  unfold plain_field. destruct (is_empty v) as [[]|] eqn:He.
  - intros _. by eapply is_empty_finite.
  - intros H. destruct v; simpl in *; [done| |done].
    by apply andb_prop in H as [_ H].
  - intros H. destruct v; simpl in *; [done| |done].
    by apply andb_prop in H as [_ H].
Qed.

Lemma plain_record_check r :
  forallb (λ key, plain_field (field r key)) schema_keys = true →
  plain_record r.
Proof.
  intros H key Hkey. rewrite forallb_forall in H.
  by apply list_elem_of_In, H in Hkey.
Qed.

Section MergeProperties.

Variable str_lower : pystr → pystr.

Lemma classify_finite key v1 v2 d :
  classify str_lower key v1 v2 = Ok d →
  finite_int v1 = true ∧ finite_int v2 = true.
Proof.
  unfold classify.
  destruct (is_empty v1) as [e1|] eqn:H1; [|done].
  destruct (is_empty v2) as [e2|] eqn:H2; [|done]. intros _.
  eauto using is_empty_finite.
Qed.

Lemma classify_raise key v1 v2 e :
  classify str_lower key v1 v2 = Raise e →
  e = OverflowError ∧ (finite_int v1 = false ∨ finite_int v2 = false).
Proof.
  intros Hc.
  destruct (finite_int v1) eqn:F1, (finite_int v2) eqn:F2;
    try (split; [|by auto]).
  - destruct (classify_ok str_lower key v1 v2 F1 F2) as [d Hd]. congruence.
  - unfold classify in Hc. destruct (is_empty_ok _ F1) as [e1 H1].
    rewrite H1 in Hc. simpl in Hc.
    destruct (is_empty v2) as [e2|e'] eqn:H2.
    + apply is_empty_finite in H2. congruence.
    + injection Hc as <-. by apply (is_empty_raise v2).
  - unfold classify in Hc.
    destruct (is_empty v1) as [e1|e'] eqn:H1.
    + apply is_empty_finite in H1. congruence.
    + injection Hc as <-. by apply (is_empty_raise v1).
  - unfold classify in Hc.
    destruct (is_empty v1) as [e1|e'] eqn:H1.
    + apply is_empty_finite in H1. congruence.
    + injection Hc as <-. by apply (is_empty_raise v1).
Qed.

Lemma classify_escalate key v1 v2 :
  classify str_lower key v1 v2 = Ok Escalate → is_conflict str_lower key v1 v2.
Proof.
  unfold classify, is_conflict.
  destruct (is_empty v1) as [[]|]; simpl; try done;
    destruct (is_empty v2) as [[]|]; simpl; try done.
  destruct (are_equal v1 v2) as [[]|]; simpl; try done.
  destruct (are_close_enough str_lower v1 v2) as [[]|]; simpl; try done.
  repeat case_bool_decide; done.
Qed.

Lemma loop_raise d1 d2 ks : ∀ st e,
  (∀ k, k ∈ ks → k ∈ schema_keys) →
  for_each (merge_field str_lower d1 d2) ks st = Raise e →
  e = OverflowError ∧
  ∃ k, k ∈ ks ∧
    (finite_int (field d1 k) = false ∨ finite_int (field d2 k) = false).
Proof.
  induction ks as [|key ks IH]; intros st e Hsch; simpl; [done|].
  rewrite merge_field_classify by (apply Hsch; left).
  destruct (classify _ _ _ _) as [d|e'] eqn:Hd; simpl.
  - intros Hrun. apply IH in Hrun as (-> & k & Hk & Hf).
    + split; [done|]. exists k. split; [by right|done].
    + intros k Hk. apply Hsch. by right.
  - intros [= <-]. apply classify_raise in Hd as [-> Hf].
    split; [done|]. exists key. split; [by left|done].
Qed.

Lemma loop_finite d1 d2 ks : ∀ st st',
  (∀ k, k ∈ ks → k ∈ schema_keys) →
  for_each (merge_field str_lower d1 d2) ks st = Ok st' →
  ∀ k, k ∈ ks →
    finite_int (field d1 k) = true ∧ finite_int (field d2 k) = true.
Proof.
  induction ks as [|key ks IH]; intros st st' Hsch; simpl;
    [intros _ k Hk; by apply elem_of_nil in Hk|].
  rewrite merge_field_classify by (apply Hsch; left).
  destruct (classify _ _ _ _) as [d|e'] eqn:Hd; simpl; [|done].
  intros Hrun k [->|Hk]%elem_of_cons.
  - by apply classify_finite in Hd.
  - apply (IH _ _ (λ k Hk, Hsch k (proj2 (elem_of_cons _ _ _) (or_intror Hk))) Hrun k Hk).
Qed.

(** X12: under the keep-second policy [merge] reads nothing from the
    standard input, and it returns exactly when every field of both records
    can be compared; otherwise it raises [OverflowError], some field
    holding an integer too large to convert to a float. *)
Theorem merge_keep2nd_outcome (d1 d2 : DeviceCarbonFootprint) (verbose : Z)
    (stdin : list pystr) :
  match merge str_lower d1 d2 Keep2nd verbose stdin with
  | Ok (_, stdin') => finite_fields d1 d2 ∧ stdin' = stdin
  | Raise e => ¬ finite_fields d1 d2 ∧ e = OverflowError
  end.
Proof.
  destruct (merge str_lower d1 d2 Keep2nd verbose stdin)
    as [[out stdin']|e] eqn:Hrun.
  - unfold merge in Hrun.
    destruct (for_each _ schema_keys _) as [st|] eqn:Hloop; [|done].
    split.
    + intros key Hkey. by apply (loop_finite _ _ _ _ _ (λ k H, H) Hloop).
    + cbn [bind] in Hrun.
      destruct (0 <? length (conflicts st))%nat; cbn [bind fst snd] in Hrun.
      * rewrite bool_decide_eq_false_2 in Hrun by (by vm_compute).
        destruct (for_each _ (conflicts st) _); [|done].
        cbn [bind fst snd] in Hrun. by injection Hrun as _ <-.
      * by injection Hrun as _ <-.
  - assert (¬ finite_fields d1 d2) as Hnf.
    { intros Hfin.
      destruct (merge_keep2nd_returns str_lower d1 d2 verbose stdin Hfin).
      congruence. }
    split; [done|]. unfold merge in Hrun.
    destruct (for_each _ schema_keys _) as [st|e'] eqn:Hloop.
    + exfalso. apply Hnf. intros key Hkey.
      by apply (loop_finite _ _ _ _ _ (λ k H, H) Hloop).
    + injection Hrun as <-. by apply loop_raise in Hloop as [-> _].
Qed.

Lemma merge_inv_winner d1 d2 conflict verbose stdin out stdin' :
  merge str_lower d1 d2 conflict verbose stdin = Ok (out, stdin') →
  merged_as str_lower d1 d2 (winner conflict stdin) out.
Proof.
  unfold merge. intros Hrun.
  destruct (for_each (merge_field str_lower d1 d2) _ _) as [st|] eqn:Hloop;
    [|done].
  cbn [bind] in Hrun.
  apply loop_spec in Hloop as [Hdone Hrest];
    [|apply schema_keys_NoDup|done|by unfold untouched; set_solver].
  assert (∀ k, k ∉ schema_keys → untouched st k) as Hun.
  { intros k Hk. eapply (untouched_same str_lower); [exact (Hrest k Hk)|].
    unfold untouched; set_solver. }
  destruct (0 <? length (conflicts st))%nat eqn:Hlen.
  - destruct conflict; cbn [bind] in Hrun.
    + cbn [bind fst snd] in Hrun.
      rewrite bool_decide_eq_false_2 in Hrun by (by vm_compute).
      destruct (for_each _ _ _) as [st'|] eqn:Hres; [|done].
      cbn [bind] in Hrun. injection Hrun as <- <-.
      by apply (resolved_merged_as _ _ _ Second st).
    + destruct stdin as [|line rest]; [done|].
      cbn [input bind fst snd] in Hrun. unfold winner.
      case_bool_decide.
      * destruct (for_each _ _ _) as [st'|] eqn:Hres; [|done].
        cbn [bind] in Hrun. injection Hrun as <- <-.
        by apply (resolved_merged_as _ _ _ First st).
      * destruct (for_each _ _ _) as [st'|] eqn:Hres; [|done].
        cbn [bind] in Hrun. injection Hrun as <- <-.
        by apply (resolved_merged_as _ _ _ Second st).
  - cbn [bind fst snd] in Hrun. injection Hrun as <- <-.
    apply Nat.ltb_ge in Hlen.
    assert (conflicts st = []) as Hnil
      by (destruct (conflicts st); [done|simpl in Hlen; lia]).
    destruct (winner conflict stdin).
    + apply (resolved_merged_as _ _ _ First st); [done..|]. by rewrite Hnil.
    + apply (resolved_merged_as _ _ _ Second st); [done..|]. by rewrite Hnil.
Qed.

(** X13: under the interactive policy, when the line read is [o], every
    field that no rule resolves has record A's value in the merged record,
    is in the first provenance set and not in the second, and is in the
    returned list of conflicts; one line of the input is consumed. *)
Theorem merge_interactive_answer_o (d1 d2 : DeviceCarbonFootprint)
    (verbose : Z) (rest stdin' : list pystr) (m : DeviceCarbonFootprint)
    (rep : gset pystr * gset pystr) (cs : list pystr) (key : pystr) :
  merge str_lower d1 d2 Interactive verbose (lit "o" :: rest)
    = Ok (m, rep, cs, stdin') →
  key ∈ schema_keys →
  is_conflict str_lower key (field d1 key) (field d2 key) →
  data m !! key = Some (field d1 key) ∧
  key ∈ rep.1 ∧ (key ∉ rep.2) ∧ key ∈ cs ∧ stdin' = rest.
Proof.
  intros Hrun Hkey Hc.
  pose proof (merge_inv_winner _ _ _ _ _ _ _ Hrun) as [Hall _].
  destruct (Hall key Hkey) as (d & Hd & H).
  rewrite (classify_conflict _ _ _ _ Hc) in Hd. injection Hd as <-.
  unfold winner in H. rewrite bool_decide_eq_true_2 in H by done.
  destruct H as [(Hv & H1 & H2) Hcs]. simpl in *.
  split_and!; try done.
  unfold merge in Hrun.
  destruct (for_each (merge_field str_lower d1 d2) _ _) as [st|]; [|done].
  cbn [bind] in Hrun.
  destruct (0 <? length (conflicts st))%nat eqn:Hlen.
  - cbn [input bind fst snd] in Hrun.
    destruct (if bool_decide _ then _ else _); [|done].
    cbn [bind] in Hrun. by injection Hrun as _ _ _ <-.
  - cbn [bind fst snd] in Hrun. injection Hrun as _ _ Hcs' _.
    apply Nat.ltb_ge in Hlen. rewrite Hcs' in Hlen.
    destruct cs; [by apply elem_of_nil in Hcs|simpl in Hlen; lia].
Qed.

(** X14: the interactive policy differs from the keep-second policy only
    by the line it reads.  With no conflict it reads nothing and returns
    what keep-second returns; with a conflict it raises [EOFError] on an
    empty input, and on any line but [o] it returns what keep-second
    returns, the line consumed. *)
Theorem merge_interactive_as_keep2nd (d1 d2 : DeviceCarbonFootprint)
    (verbose : Z) (stdin0 stdin0' : list pystr) (out : merge_output) :
  merge str_lower d1 d2 Keep2nd verbose stdin0 = Ok (out, stdin0') →
  (out.2 = [] →
   ∀ stdin, merge str_lower d1 d2 Interactive verbose stdin = Ok (out, stdin)) ∧
  (out.2 ≠ [] →
   merge str_lower d1 d2 Interactive verbose [] = Raise EOFError ∧
   ∀ line rest, line ≠ lit "o" →
     merge str_lower d1 d2 Interactive verbose (line :: rest) = Ok (out, rest)).
Proof.
  unfold merge.
  destruct (for_each (merge_field str_lower d1 d2) _ _) as [st|]; [|done].
  cbn [bind].
  destruct (0 <? length (conflicts st))%nat eqn:Hlen; cbn [bind fst snd input].
  - rewrite bool_decide_eq_false_2 by (by vm_compute).
    destruct (for_each (resolve d2 Second) _ _) as [st'|] eqn:Hres; [|done].
    cbn [bind]. intros [= <- _].
    pose proof (resolve_spec str_lower _ _ _ _ _ Hres) as (Hcs & _).
    cbn [snd]. apply Nat.ltb_lt in Hlen. split.
    + intros Hnil. rewrite Hcs in Hnil. rewrite Hnil in Hlen.
      simpl in Hlen. lia.
    + intros _. split; [done|]. intros line rest Hline.
      by rewrite bool_decide_eq_false_2.
  - intros [= <- _]. cbn [snd]. apply Nat.ltb_ge in Hlen. split; [done|].
    intros Hne. destruct (conflicts st); [done|simpl in Hlen; lia].
Qed.

(** X15: the provenance report tells the truth: a field listed in the
    first set holds record A's value in the merged record, a field listed
    in the second set holds record B's. *)
Theorem merge_provenance_truthful (d1 d2 : DeviceCarbonFootprint)
    (conflict : conflict_policy) (verbose : Z) (stdin stdin' : list pystr)
    (m : DeviceCarbonFootprint) (rep : gset pystr * gset pystr)
    (cs : list pystr) (key : pystr) :
  merge str_lower d1 d2 conflict verbose stdin = Ok (m, rep, cs, stdin') →
  (key ∈ rep.1 → data m !! key = Some (field d1 key)) ∧
  (key ∈ rep.2 → data m !! key = Some (field d2 key)).
Proof.
  intros Hrun. pose proof (merge_inv_winner _ _ _ _ _ _ _ Hrun) as Hm.
  destruct (decide (key ∈ schema_keys)) as [Hkey|Hkey].
  - destruct (merged_as_kept _ _ _ _ _ key Hm Hkey) as ([] & Hv & Hin & Hout);
      simpl in *; split; intros H; done.
  - destruct Hm as [_ Hrest]. destruct (Hrest key Hkey) as (_ & H1 & H2 & _).
    simpl in *. split; intros H; done.
Qed.

Lemma classify_first key v1 v2 d :
  classify str_lower key v1 v2 = Ok d →
  (d = Keep First ↔ only_first v1 v2 = true).
Proof.
  unfold classify, only_first.
  destruct (is_empty v1) as [[]|]; simpl; try done;
    destruct (is_empty v2) as [[]|]; simpl; try done;
    try (intros [= <-]; naive_solver).
  destruct (are_equal v1 v2) as [[]|]; simpl; try done;
    try (intros [= <-]; naive_solver).
  destruct (are_close_enough str_lower v1 v2) as [[]|]; simpl; try done;
    try (intros [= <-]; naive_solver).
  repeat case_bool_decide; intros [= <-]; naive_solver.
Qed.

(** X16: under the keep-second policy the merged record is determined
    field by field: record A's value where A has the field and B has not,
    record B's value everywhere else; the first provenance set lists
    exactly the former fields. *)
Theorem merge_keep2nd_values (d1 d2 : DeviceCarbonFootprint) (verbose : Z)
    (stdin stdin' : list pystr) (m : DeviceCarbonFootprint)
    (rep : gset pystr * gset pystr) (cs : list pystr) (key : pystr) :
  merge str_lower d1 d2 Keep2nd verbose stdin = Ok (m, rep, cs, stdin') →
  key ∈ schema_keys →
  data m !! key =
    Some (if only_first (field d1 key) (field d2 key)
          then field d1 key else field d2 key) ∧
  (key ∈ rep.1 ↔ only_first (field d1 key) (field d2 key) = true).
Proof.
  intros Hrun Hkey.
  pose proof (merge_inv_winner _ _ _ _ _ _ _ Hrun) as [Hall _].
  destruct (Hall key Hkey) as (d & Hd & H).
  apply classify_first in Hd. simpl in H.
  destruct d as [[]|]; destruct H as [(Hv & Hin & Hout) _]; simpl in *.
  - rewrite (proj1 Hd eq_refl). split; [done|]. by split.
  - destruct (only_first _ _); [discriminate (proj2 Hd eq_refl)|].
    split; [done|]. by split.
  - destruct (only_first _ _); [discriminate (proj2 Hd eq_refl)|].
    split; [done|]. by split.
Qed.

Lemma loop_conflicts_sublist d1 d2 ks : ∀ st st',
  (∀ k, k ∈ ks → k ∈ schema_keys) →
  for_each (merge_field str_lower d1 d2) ks st = Ok st' →
  ∃ cs, conflicts st' = conflicts st ++ cs ∧ cs `sublist_of` ks.
Proof.
  induction ks as [|key ks IH]; intros st st' Hsch; simpl.
  - intros [= <-]. exists []. by rewrite app_nil_r.
  - rewrite merge_field_classify by (apply Hsch; left).
    destruct (classify _ _ _ _) as [d|] eqn:Hd; simpl; [|done].
    intros Hrun. apply IH in Hrun as (cs & Hcs & Hsub);
      [|intros k Hk; apply Hsch; by right].
    destruct d as [[]|]; simpl in Hcs.
    + exists cs. split; [done|]. by apply sublist_cons.
    + exists cs. split; [done|]. by apply sublist_cons.
    + exists (key :: cs). rewrite <- app_assoc in Hcs. split; [done|].
      by apply sublist_skip.
Qed.

Lemma merge_conflicts_spec d1 d2 conflict verbose stdin stdin' m rep cs :
  merge str_lower d1 d2 conflict verbose stdin = Ok (m, rep, cs, stdin') →
  cs `sublist_of` schema_keys ∧
  ∀ key, key ∈ cs ↔
    key ∈ schema_keys ∧
    is_conflict str_lower key (field d1 key) (field d2 key).
Proof.
  intros Hrun.
  assert (cs `sublist_of` schema_keys) as Hsub.
  { unfold merge in Hrun.
    destruct (for_each (merge_field str_lower d1 d2) _ _) as [st|] eqn:Hloop;
      [|done].
    apply loop_conflicts_sublist in Hloop as (cs0 & Hcs0 & Hsub); [|done].
    simpl in Hcs0. subst cs0. cbn [bind] in Hrun.
    destruct (0 <? length (conflicts st))%nat; cbn [bind fst snd] in Hrun.
    - destruct (match conflict with Keep2nd => _ | Interactive => _ end)
        as [[k rest]|]; [|done].
      cbn [bind fst snd] in Hrun.
      destruct (bool_decide _);
        destruct (for_each _ (conflicts st) _) as [st'|] eqn:Hres; try done;
        apply (resolve_spec str_lower) in Hres as (Hc & _);
        cbn [bind] in Hrun; injection Hrun as _ _ <- _; by rewrite Hc.
    - by injection Hrun as _ _ <- _. }
  split; [done|].
  pose proof (merge_inv_winner _ _ _ _ _ _ _ Hrun) as [Hall Hrest].
  intros key. split.
  - intros Hin.
    assert (key ∈ schema_keys) as Hkey by (by eapply elem_of_sublist).
    split; [done|]. destruct (Hall key Hkey) as (d & Hd & H). simpl in H.
    destruct d as [i|]; [by destruct H|]. by eapply classify_escalate.
  - intros [Hkey Hc]. destruct (Hall key Hkey) as (d & Hd & H).
    rewrite (classify_conflict _ _ _ _ Hc) in Hd. injection Hd as <-.
    by destruct H.
Qed.

(** X17: the list of conflicts that [merge] returns holds exactly the
    fields of the schema that no rule resolves, each once, in the order of
    the schema, whatever the policy. *)
Theorem merge_conflicts_listed (d1 d2 : DeviceCarbonFootprint)
    (conflict : conflict_policy) (verbose : Z) (stdin stdin' : list pystr)
    (m : DeviceCarbonFootprint) (rep : gset pystr * gset pystr)
    (cs : list pystr) :
  merge str_lower d1 d2 conflict verbose stdin = Ok (m, rep, cs, stdin') →
  cs `sublist_of` schema_keys ∧ NoDup cs ∧
  ∀ key, key ∈ cs ↔
    key ∈ schema_keys ∧
    is_conflict str_lower key (field d1 key) (field d2 key).
Proof.
  intros [Hsub H]%merge_conflicts_spec. split; [done|]. split; [|done].
  eapply sublist_NoDup; eauto using schema_keys_NoDup.
Qed.

Lemma are_equal_sym a b : are_equal a b = are_equal b a.
Proof.
  destruct (is_str a) eqn:Ha, (is_str b) eqn:Hb; try (by destruct a, b).
  - destruct a as [s| |], b as [t| |]; try done. simpl.
    f_equal; apply bool_decide_ext; naive_solver.
  - rewrite !are_equal_within by done. apply within_comm.
Qed.

Lemma are_close_enough_sym a b :
  are_close_enough str_lower a b = are_close_enough str_lower b a.
Proof.
  destruct (is_str a) eqn:Ha, (is_str b) eqn:Hb; try (by destruct a, b).
  - destruct a as [s| |], b as [t| |]; try done. simpl.
    f_equal; apply bool_decide_ext; naive_solver.
  - rewrite !are_close_enough_within by done. apply within_comm.
Qed.

Lemma is_conflict_sym key v1 v2 :
  is_conflict str_lower key v1 v2 → is_conflict str_lower key v2 v1.
Proof.
  unfold is_conflict.
  rewrite (are_equal_sym v2 v1), (are_close_enough_sym v2 v1).
  naive_solver.
Qed.

(** X18: the list of conflicts does not depend on which record is given
    first: merging A with B and merging B with A, under any policies and
    inputs, return the same list. *)
Theorem merge_conflicts_symmetric (d1 d2 : DeviceCarbonFootprint)
    (c c' : conflict_policy) (verbose verbose' : Z)
    (stdin stdin' rest rest' : list pystr) (m m' : DeviceCarbonFootprint)
    (rep rep' : gset pystr * gset pystr) (cs cs' : list pystr) :
  merge str_lower d1 d2 c verbose stdin = Ok (m, rep, cs, rest) →
  merge str_lower d2 d1 c' verbose' stdin' = Ok (m', rep', cs', rest') →
  cs = cs'.
Proof.
  intros [Hsub H]%merge_conflicts_spec [Hsub' H']%merge_conflicts_spec.
  apply (sublist_same_elements cs cs' schema_keys);
    [apply schema_keys_NoDup|done..|].
  intros key. rewrite H, H'. split; intros [? ?%is_conflict_sym]; done.
Qed.

Lemma merged_as_agree d1 d2 w w' out out' key :
  merged_as str_lower d1 d2 w out → merged_as str_lower d1 d2 w' out' →
  key ∉ out.2 →
  data out.1.1 !! key = data out'.1.1 !! key ∧
  (key ∈ out.1.2.1 ↔ key ∈ out'.1.2.1) ∧
  (key ∈ out.1.2.2 ↔ key ∈ out'.1.2.2).
Proof.
  intros [Hall Hrest] [Hall' Hrest'] Hkey.
  destruct (decide (key ∈ schema_keys)) as [Hs|Hs].
  - destruct (Hall key Hs) as (d & Hd & H).
    destruct (Hall' key Hs) as (d' & Hd' & H').
    assert (d' = d) as -> by congruence.
    destruct d as [i|]; [|by destruct H].
    destruct H as [(Hv & Hin & Hout) _], H' as [(Hv' & Hin' & Hout') _].
    split; [congruence|]. by destruct i.
  - destruct (Hrest key Hs) as (Hv & H1 & H2 & _).
    destruct (Hrest' key Hs) as (Hv' & H1' & H2' & _).
    split; [congruence|]. by split.
Qed.

(** X21: the policy and the answer read matter to the conflicting fields
    only: two runs of [merge] on the same two records, under any policies
    and inputs, return the same list of conflicts, and outside that list
    the same values and the same provenance. *)
Theorem merge_policy_only_conflicts (d1 d2 : DeviceCarbonFootprint)
    (c c' : conflict_policy) (verbose verbose' : Z)
    (stdin stdin' rest rest' : list pystr) (m m' : DeviceCarbonFootprint)
    (rep rep' : gset pystr * gset pystr) (cs cs' : list pystr) :
  merge str_lower d1 d2 c verbose stdin = Ok (m, rep, cs, rest) →
  merge str_lower d1 d2 c' verbose' stdin' = Ok (m', rep', cs', rest') →
  cs = cs' ∧
  ∀ key, key ∉ cs →
    data m !! key = data m' !! key ∧
    (key ∈ rep.1 ↔ key ∈ rep'.1) ∧ (key ∈ rep.2 ↔ key ∈ rep'.2).
Proof.
  intros Hrun Hrun'. split.
  - pose proof (merge_conflicts_spec _ _ _ _ _ _ _ _ _ Hrun) as [Hsub H].
    pose proof (merge_conflicts_spec _ _ _ _ _ _ _ _ _ Hrun') as [Hsub' H'].
    apply (sublist_same_elements cs cs' schema_keys);
      [apply schema_keys_NoDup|done..|].
    intros key. by rewrite H, H'.
  - intros key Hkey.
    pose proof (merge_inv_winner _ _ _ _ _ _ _ Hrun) as Hm.
    pose proof (merge_inv_winner _ _ _ _ _ _ _ Hrun') as Hm'.
    exact (merged_as_agree _ _ _ _ _ _ key Hm Hm' Hkey).
Qed.

Lemma classify_self key v :
  plain_field v = true → classify str_lower key v v = Ok (Keep Second).
Proof.
  intros Hv. unfold classify.
  destruct (is_empty_ok v (plain_finite v Hv)) as [[] He]; rewrite He;
    cbn [bind]; [done|].
  unfold plain_field in Hv. rewrite He in Hv.
  by rewrite (are_equal_plain v Hv).
Qed.

(** X19: merging a record with itself, when each of its fields is empty,
    a string, or a number from zero on that is finite, finds no conflict
    and reads no input under either policy; the merged record holds the
    record's own value in every field of the schema, and the report gives
    every field to the second record. *)
Theorem merge_self_plain (r : DeviceCarbonFootprint)
    (conflict : conflict_policy) (verbose : Z) (stdin : list pystr) :
  plain_record r →
  ∃ m rep,
    merge str_lower r r conflict verbose stdin = Ok (m, rep, [], stdin) ∧
    (∀ key, data m !! key =
       if bool_decide (key ∈ schema_keys) then Some (field r key) else None) ∧
    rep.1 = ∅ ∧ rep.2 = list_to_set schema_keys.
Proof.
  intros Hr.
  assert (finite_fields r r) as Hfin.
  { intros key Hkey. split; apply plain_finite, Hr, Hkey. }
  unfold merge.
  destruct (loop_ok str_lower r r schema_keys
              {| result := ∅; report := (∅, ∅); conflicts := [] |} Hfin)
    as [st Hloop]; [done|].
  rewrite Hloop. cbn [bind].
  apply loop_spec in Hloop as [Hdone Hrest];
    [|apply schema_keys_NoDup|done|by unfold untouched; set_solver].
  assert (∀ key, key ∈ schema_keys →
            kept r r Second (result st) (report st) key ∧ key ∉ conflicts st)
    as Hkept.
  { intros key Hkey. destruct (Hdone key Hkey) as (d & Hd & H).
    rewrite (classify_self key _ (Hr key Hkey)) in Hd. by injection Hd as <-. }
  assert (∀ key, key ∉ schema_keys → untouched st key) as Hun.
  { intros k Hk. eapply (untouched_same str_lower); [exact (Hrest k Hk)|].
    unfold untouched; set_solver. }
  assert (conflicts st = []) as Hnil.
  { apply elem_of_nil_inv. intros key Hin.
    destruct (decide (key ∈ schema_keys)) as [Hkey|Hkey].
    - by apply (Hkept key Hkey).
    - by apply (Hun key Hkey). }
  rewrite Hnil. cbn [length Nat.ltb Nat.leb bind fst snd].
  exists {| data := result st |}, (report st). split; [by rewrite Hnil|].
  split_and!.
  - intros key. cbn [data]. case_bool_decide as Hkey.
    + by destruct (Hkept key Hkey) as [(-> & _) _].
    + by destruct (Hun key Hkey) as (-> & _).
  - apply set_eq. intros key. split; [|by intros ?%elem_of_empty].
    intros Hin. exfalso.
    destruct (decide (key ∈ schema_keys)) as [Hkey|Hkey].
    + by destruct (Hkept key Hkey) as [(_ & _ & Hno) _].
    + by destruct (Hun key Hkey) as (_ & Hno & _).
  - apply set_eq. intros key. rewrite elem_of_list_to_set. split.
    + intros Hin. destruct (decide (key ∈ schema_keys)) as [Hkey|Hkey]; [done|].
      by destruct (Hun key Hkey) as (_ & _ & Hno & _).
    + intros Hkey. by destruct (Hkept key Hkey) as [(_ & Hin & _) _].
Qed.

End MergeProperties.

(** ** The further properties of the merger on the sample records *)

Lemma merge_interactive_answer_o_witness :
  ∃ m rep cs,
    merge ascii_lower device_a device_b Interactive 0 [lit "o"]
      = Ok (m, rep, cs, []) ∧
    data m !! lit "category" = Some (VStr (lit "Laptop")) ∧
    lit "category" ∈ rep.1 ∧ (lit "category" ∉ rep.2) ∧ lit "category" ∈ cs.
Proof.
  destruct (merge_interactive_returns ascii_lower device_a device_b 0
              (lit "o") [])
    as ([[m rep] cs] & stdin' & Hrun & _).
  { apply finite_fields_check. vm_compute. reflexivity. }
  destruct (merge_interactive_answer_o ascii_lower device_a device_b 0 []
              stdin' m rep cs (lit "category") Hrun)
    as (Hv & H1 & H2 & Hcs & Hin).
  - apply (bool_decide_unpack _). vm_compute. reflexivity.
  - repeat split; try (vm_compute; reflexivity).
    + apply (bool_decide_unpack _). vm_compute. reflexivity.
    + apply (bool_decide_unpack _). vm_compute. reflexivity.
  - subst stdin'. exists m, rep, cs.
    split; [exact Hrun|]. split; [exact Hv|]. split; [exact H1|].
    split; [exact H2|exact Hcs].
Defined.

Lemma merge_interactive_as_keep2nd_witness :
  ∃ out,
    merge ascii_lower device_a device_b Keep2nd 0 [] = Ok (out, []) ∧
    (out.2 = [] →
     ∀ stdin,
       merge ascii_lower device_a device_b Interactive 0 stdin
       = Ok (out, stdin)) ∧
    (out.2 ≠ [] →
     merge ascii_lower device_a device_b Interactive 0 [] = Raise EOFError ∧
     ∀ line rest, line ≠ lit "o" →
       merge ascii_lower device_a device_b Interactive 0 (line :: rest)
       = Ok (out, rest)).
Proof.
  destruct (merge_keep2nd_returns ascii_lower device_a device_b 0 [])
    as [out Hrun].
  { apply finite_fields_check. vm_compute. reflexivity. }
  exists out. split; [exact Hrun|].
  exact (merge_interactive_as_keep2nd ascii_lower _ _ _ _ _ _ Hrun).
Defined.

Lemma merge_provenance_truthful_witness :
  ∃ m rep cs,
    merge ascii_lower device_a device_b Keep2nd 0 [] = Ok (m, rep, cs, []) ∧
    (lit "weight" ∈ rep.1 →
     data m !! lit "weight" = Some (VFloat 1.5)) ∧
    (lit "weight" ∈ rep.2 → data m !! lit "weight" = Some (VStr [])).
Proof.
  destruct (merge_keep2nd_returns ascii_lower device_a device_b 0 [])
    as [[[m rep] cs] Hrun].
  { apply finite_fields_check. vm_compute. reflexivity. }
  exists m, rep, cs. split; [exact Hrun|].
  exact (merge_provenance_truthful ascii_lower _ _ _ _ _ _ _ _ _
           (lit "weight") Hrun).
Defined.

Lemma merge_keep2nd_values_witness :
  ∃ m rep cs,
    merge ascii_lower device_a device_b Keep2nd 0 [] = Ok (m, rep, cs, []) ∧
    data m !! lit "weight" = Some (VFloat 1.5) ∧
    (lit "weight" ∈ rep.1 ↔
     only_first (VFloat 1.5) (VStr []) = true).
Proof.
  destruct (merge_keep2nd_returns ascii_lower device_a device_b 0 [])
    as [[[m rep] cs] Hrun].
  { apply finite_fields_check. vm_compute. reflexivity. }
  exists m, rep, cs. split; [exact Hrun|].
  apply (merge_keep2nd_values ascii_lower _ _ _ _ _ _ _ _ (lit "weight") Hrun).
  apply (bool_decide_unpack _). vm_compute. reflexivity.
Defined.

Lemma merge_conflicts_listed_witness :
  ∃ m rep cs,
    merge ascii_lower device_a device_b Keep2nd 0 [] = Ok (m, rep, cs, []) ∧
    cs `sublist_of` schema_keys ∧ NoDup cs ∧
    ∀ key, key ∈ cs ↔
      key ∈ schema_keys ∧
      is_conflict ascii_lower key (field device_a key) (field device_b key).
Proof.
  destruct (merge_keep2nd_returns ascii_lower device_a device_b 0 [])
    as [[[m rep] cs] Hrun].
  { apply finite_fields_check. vm_compute. reflexivity. }
  exists m, rep, cs. split; [exact Hrun|].
  exact (merge_conflicts_listed ascii_lower _ _ _ _ _ _ _ _ _ Hrun).
Defined.

Lemma merge_conflicts_symmetric_witness :
  ∃ m rep cs m' rep' cs',
    merge ascii_lower device_a device_b Keep2nd 0 [] = Ok (m, rep, cs, []) ∧
    merge ascii_lower device_b device_a Keep2nd 0 []
      = Ok (m', rep', cs', []) ∧
    cs = cs'.
Proof.
  destruct (merge_keep2nd_returns ascii_lower device_a device_b 0 [])
    as [[[m rep] cs] Hrun].
  { apply finite_fields_check. vm_compute. reflexivity. }
  destruct (merge_keep2nd_returns ascii_lower device_b device_a 0 [])
    as [[[m' rep'] cs'] Hrun'].
  { apply finite_fields_check. vm_compute. reflexivity. }
  exists m, rep, cs, m', rep', cs'. split; [exact Hrun|]. split; [exact Hrun'|].
  exact (merge_conflicts_symmetric ascii_lower _ _ _ _ _ _ _ _ _ _ _ _ _ _
           _ _ Hrun Hrun').
Defined.

Lemma merge_self_plain_witness :
  ∃ m rep,
    merge ascii_lower device_a device_a Interactive 0 [] = Ok (m, rep, [], []) ∧
    (∀ key, data m !! key =
       if bool_decide (key ∈ schema_keys) then Some (field device_a key)
       else None) ∧
    rep.1 = ∅ ∧ rep.2 = list_to_set schema_keys.
Proof.
  apply (merge_self_plain ascii_lower device_a Interactive 0 []).
  apply plain_record_check. vm_compute. reflexivity.
Defined.

Lemma merge_policy_only_conflicts_witness :
  ∃ m rep cs rest m' rep' cs',
    merge ascii_lower device_a device_b Interactive 0 [lit "o"]
      = Ok (m, rep, cs, rest) ∧
    merge ascii_lower device_a device_b Keep2nd 0 [] = Ok (m', rep', cs', []) ∧
    cs = cs' ∧
    ∀ key, key ∉ cs →
      data m !! key = data m' !! key ∧
      (key ∈ rep.1 ↔ key ∈ rep'.1) ∧ (key ∈ rep.2 ↔ key ∈ rep'.2).
Proof.
  destruct (merge_interactive_returns ascii_lower device_a device_b 0
              (lit "o") [])
    as ([[m rep] cs] & rest & Hrun & _).
  { apply finite_fields_check. vm_compute. reflexivity. }
  destruct (merge_keep2nd_returns ascii_lower device_a device_b 0 [])
    as [[[m' rep'] cs'] Hrun'].
  { apply finite_fields_check. vm_compute. reflexivity. }
  exists m, rep, cs, rest, m', rep', cs'.
  split; [exact Hrun|]. split; [exact Hrun'|].
  exact (merge_policy_only_conflicts ascii_lower _ _ _ _ _ _ _ _ _ _ _ _ _ _
           _ _ Hrun Hrun').
Defined.
